(** * BF.js: a shallow embedding of the three interpreters of the repository

    The repository holds one interpreter loop in three versions:

    - [BFjs.BF]: the function [BF(code, opts)] of [bf.js];
    - [InstanceFields.BFInterpreter]: the TypeScript class that keeps the
      tape, the pointers and the loop stack in fields of the interpreter
      object, created by the constructor;
    - [StateObject.BFInterpreter]: the TypeScript class that creates a
      [BFInterpreterState] object at every call of [Interpret].

    The JavaScript values the loops work on are modelled in [Js]: numbers
    are mathematical integers or [NaN] (integer arithmetic on doubles is
    exact below 2^53 in magnitude, and the model does not go beyond that),
    [undefined] is [None], strings are lists of UTF-16 code units, and an
    array is a finite map from integer property keys to numbers together
    with its [length] property. *)

From stdpp Require Import base numbers option list gmap strings.
From Stdlib Require Import ZArith Lia Ascii String.

Local Open Scope Z_scope.

(** ** JavaScript values *)

Module Js.

(** A JavaScript number that is an integer, or NaN. *)
Inductive number : Type :=
| Num (z : Z)
| NaN.

#[global] Instance number_eq_dec : EqDecision number.
Proof. solve_decision. Defined.

(** A value read from an array or a string position: [None] is
    [undefined]. *)
Definition value : Type := option number.

(** [ToNumber]: [undefined] becomes [NaN]. *)
Definition ToNumber (v : value) : number :=
  match v with
  | Some n => n
  | None => NaN
  end.

(** [x + d] for an integer constant [d]; [NaN + d] is [NaN]. *)
Definition add (x : number) (d : Z) : number :=
  match x with
  | Num z => Num (z + d)
  | NaN => NaN
  end.

(** [v === 0]: false for [undefined] and for [NaN]. *)
Definition strict_eq_zero (v : value) : bool :=
  match v with
  | Some (Num z) => z =? 0
  | _ => false
  end.

(** [x || 0] on a number: [NaN] and [0] are falsy. *)
Definition or_zero (x : number) : number :=
  match x with
  | Num z => Num z
  | NaN => Num 0
  end.

(** A string is the list of its UTF-16 code units. *)
Abbreviation jsstring := (list Z) (only parsing).

(** The code units of a string are 16-bit. *)
Definition wf_string (s : jsstring) : Prop :=
  Forall (λ c, 0 ≤ c < 65536) s.

(** [s.charCodeAt(k)] for a position [k >= 0]: [NaN] past the end. *)
Definition charCodeAt (s : jsstring) (k : nat) : number :=
  match s !! k with
  | Some c => Num c
  | None => NaN
  end.

(** [String.fromCharCode(v)]: the argument goes through [ToUint16], which
    sends [NaN] (and so [undefined]) to 0 and an integer to its residue
    modulo 2^16.  The result is a one-unit string, given by its unit. *)
Definition fromCharCode (v : value) : Z :=
  match ToNumber v with
  | Num z => z mod 65536
  | NaN => 0
  end.

(** The code unit of an ASCII character, and the string of an ASCII
    literal. *)
Definition unit_of (a : Ascii.ascii) : Z := Z.of_N (Ascii.N_of_ascii a).

Fixpoint str (s : string) : jsstring :=
  match s with
  | EmptyString => []
  | String a r => unit_of a :: str r
  end.

(** [token === "c"] for a one-character literal. *)
Definition tok_is (token : Z) (a : Ascii.ascii) : bool := token =? unit_of a.

(** An [Array] of numbers: its integer-keyed properties and its
    [length] property, [alength].  A position without a property reads
    as [undefined]. *)
Record Array : Type := mkArray {
  props : gmap Z number;
  alength : Z
}.

#[global] Instance Array_eq_dec : EqDecision Array.
Proof. solve_decision. Defined.

(** [a[i]] *)
Definition aget (a : Array) (i : Z) : value := props a !! i.

(** [a[i] = x].  Writing at an array index (an integer from 0 to
    2^32 - 2) at or past [length] grows [length] to [i + 1]; any other key
    is an ordinary property. *)
Definition aset (a : Array) (i : Z) (x : number) : Array :=
  {| props := <[i := x]> (props a);
     alength := if bool_decide (0 ≤ i < 4294967295 ∧ alength a ≤ i)
                then i + 1 else alength a |}.

(** The properties [0 .. n-1], all zero. *)
Definition zeros (n : Z) : gmap Z number :=
  list_to_map ((λ i, (i, Num 0)) <$> seqZ 0 n).

(** [new Array(n)] followed by [fill(0)].  [new Array(n)] raises a
    RangeError unless [n] is an integer in [0, 2^32). *)
Definition new_Array_fill0 (n : Z) : option Array :=
  if bool_decide (0 ≤ n < 4294967296)
  then Some {| props := zeros n; alength := n |}
  else None.

(** A stack kept in an array: [push] appends, [pop] drops the last
    element (and does nothing on the empty array), [a[a.length - 1]] is
    [undefined] on the empty array. *)
Definition push (a : list nat) (x : nat) : list nat := a ++ [x].
Definition pop (a : list nat) : list nat := removelast a.
Definition peek (a : list nat) : option nat := last a.

End Js.

Import Js.

(** ** What the interpreters raise, return and write *)

(** The values thrown.  The three [Error]s of the TypeScript classes are
    told apart by their message; each constructor carries the values the
    message interpolates. *)
Inductive Error : Type :=
| InvalidCharacter (token : Z) (location : nat)
    (* `Invalid character '${code[i]}' at location ${i}` *)
| PointerBelowZero (memoryPointer : Z) (stdInPointer : nat) (words : Z)
    (* "Memory pointer cannot be less than 0.\n" ... *)
| PointerAboveLimit (greatest : Z) (memoryPointer : Z) (stdInPointer : nat)
    (words : Z)
    (* `Memory pointer cannot be greater than ${greatest}.\n` ... *)
| RangeError_invalid_array_length.
    (* raised by [new Array(n)] *)

#[global] Instance Error_eq_dec : EqDecision Error.
Proof. solve_decision. Defined.

(** The two pointer errors are the specification's PointerRangeError. *)
Definition PointerRangeError (e : Error) : bool :=
  match e with
  | PointerBelowZero _ _ _ | PointerAboveLimit _ _ _ _ => true
  | _ => false
  end.

(** How a call completes. *)
Inductive completion (A : Type) : Type :=
| Normal (a : A)
| Throw (e : Error).
Arguments Normal {A} a.
Arguments Throw {A} e.

(** One round of the [for] loop: go on at the next index, leave the loop
    with the output, or raise. *)
Inductive round (S : Type) : Type :=
| Next (i : nat) (stdOut : jsstring) (st : S)
| Leave (stdOut : jsstring) (st : S)
| Raise (e : Error) (st : S).
Arguments Next {S} i stdOut st.
Arguments Leave {S} stdOut st.
Arguments Raise {S} e st.

(** The output sinks and the callback are outside the program: a sink is
    a handle, and what the program does to it is recorded as an event.
    Sinks and callbacks are taken to return normally. *)
Definition HTMLElement : Type := nat.
Definition ICompleteCallback : Type := nat.

Inductive Event : Type :=
| ConsoleLog (text : jsstring)
| AppendDiv (parent : HTMLElement) (class : string) (text : jsstring)
| AppendDivById (id : string) (class : string) (text : jsstring)
| CallbackCall (f : ICompleteCallback) (stdOut : jsstring).

(** [BFInterpreterOptions], the same class in both TypeScript files. *)
Record BFInterpreterOptions : Type := mkOptions {
  MemoryWords : Z;
  StdIn : jsstring;
  OutputElement : option HTMLElement;
  Quiet : bool;
  CompleteCallback : option ICompleteCallback
}.

Definition new_BFInterpreterOptions : BFInterpreterOptions :=
  {| MemoryWords := 30000;
     StdIn := [];
     OutputElement := None;
     Quiet := false;
     CompleteCallback := None |}.

(** [WriteOutput] and [OnComplete], the same methods in both classes. *)
Definition WriteOutput (options : BFInterpreterOptions) (stdOut : jsstring)
  : list Event :=
  if negb (Quiet options) then
    match OutputElement options with
    | None => [ConsoleLog stdOut]
    | Some el => [AppendDiv el "bfjs" stdOut]
    end
  else [].

Definition OnComplete (options : BFInterpreterOptions) (stdOut : jsstring)
  : list Event :=
  match CompleteCallback options with
  | Some f => [CallbackCall f stdOut]
  | None => []
  end.

(** ** The [for] loop

    All three interpreters run the same loop,
    [for (i = 0; i < code.length; i ++) { ... }], around a body that may
    reassign [i].  [for_loop body fuel i stdOut st] runs at most [fuel]
    rounds of it and is [None] when they do not suffice; [after body n r]
    is where the loop stands [n] rounds after [r]. *)

Section ForLoop.

Context {S : Type}.
Variable body : nat → jsstring → S → round S.

Fixpoint for_loop (fuel : nat) (i : nat) (stdOut : jsstring) (st : S)
  : option (completion jsstring * S) :=
  match fuel with
  | O => None
  | Datatypes.S fuel' =>
      match body i stdOut st with
      | Next i' stdOut' st' => for_loop fuel' i' stdOut' st'
      | Leave stdOut' st' => Some (Normal stdOut', st')
      | Raise e st' => Some (Throw e, st')
      end
  end.

Fixpoint after (n : nat) (r : round S) : round S :=
  match n with
  | O => r
  | Datatypes.S n' =>
      match r with
      | Next i stdOut st => after n' (body i stdOut st)
      | _ => r
      end
  end.

(** The state a round ends in. *)
Definition state_of (r : round S) : S :=
  match r with
  | Next _ _ st | Leave _ st | Raise _ st => st
  end.

End ForLoop.

Arguments tok_is token a%_char_scope.

(** ** The class with a state object per run (second TypeScript file) *)

Module StateObject.

Record BFInterpreterState : Type := mkState {
  memoryPointer : Z;
  memory : Array;
  stdInPointer : nat;
  loopStartIndices : list nat
}.

#[global] Instance BFInterpreterState_eq_dec : EqDecision BFInterpreterState.
Proof. solve_decision. Defined.

(** The constructor: the field initialisers, then [InitializeMemory]. *)
Definition new_BFInterpreterState (options : BFInterpreterOptions)
  : completion BFInterpreterState :=
  match new_Array_fill0 (MemoryWords options) with
  | Some m =>
      Normal {| memoryPointer := 0; memory := m; stdInPointer := 0;
                loopStartIndices := [] |}
  | None => Throw RangeError_invalid_array_length
  end.

(** [MoveMemoryPointer]: the pointer is moved first and checked after,
    against [this.memory.length]. *)
Definition MoveMemoryPointer (this : BFInterpreterState) (forward : Z)
  : BFInterpreterState * option Error :=
  let this' :=
    {| memoryPointer := memoryPointer this + forward;
       memory := memory this;
       stdInPointer := stdInPointer this;
       loopStartIndices := loopStartIndices this |} in
  if memoryPointer this' <? 0 then
    (this', Some (PointerBelowZero (memoryPointer this')
                    (stdInPointer this') (alength (memory this'))))
  else if memoryPointer this' >? alength (memory this') then
    (this', Some (PointerAboveLimit (alength (memory this') - 1)
                    (memoryPointer this') (stdInPointer this')
                    (alength (memory this'))))
  else (this', None).

Definition with_memory (this : BFInterpreterState) (m : Array)
  : BFInterpreterState :=
  {| memoryPointer := memoryPointer this;
     memory := m;
     stdInPointer := stdInPointer this;
     loopStartIndices := loopStartIndices this |}.

Definition with_loopStartIndices (this : BFInterpreterState)
  (l : list nat) : BFInterpreterState :=
  {| memoryPointer := memoryPointer this;
     memory := memory this;
     stdInPointer := stdInPointer this;
     loopStartIndices := l |}.

(** [this.memory[this.memoryPointer] += amount] *)
Definition IncrementMemoryLocation (this : BFInterpreterState) (amount : Z)
  : BFInterpreterState :=
  with_memory this
    (aset (memory this) (memoryPointer this)
       (add (ToNumber (aget (memory this) (memoryPointer this))) amount)).

(** [ReadCharFromStdIn]: the test [charCode === NaN] is false for every
    value, [NaN] included, so its branch never runs and [charCode] is
    stored as read. *)
Definition ReadCharFromStdIn (this : BFInterpreterState) (stdIn : jsstring)
  : BFInterpreterState :=
  let charCode := charCodeAt stdIn (stdInPointer this) in
  {| memoryPointer := memoryPointer this;
     memory := aset (memory this) (memoryPointer this) charCode;
     stdInPointer := S (stdInPointer this);
     loopStartIndices := loopStartIndices this |}.

Definition GetCharForStdOut (this : BFInterpreterState) : Z :=
  fromCharCode (aget (memory this) (memoryPointer this)).

Definition IsMemoryLocationZero (this : BFInterpreterState) : bool :=
  strict_eq_zero (aget (memory this) (memoryPointer this)).

Definition BeginNewLoop (this : BFInterpreterState) (scriptIndex : nat)
  : BFInterpreterState :=
  with_loopStartIndices this (push (loopStartIndices this) scriptIndex).

Definition EndLoop (this : BFInterpreterState) : BFInterpreterState :=
  with_loopStartIndices this (pop (loopStartIndices this)).

Definition PeekLoopStartIndices (this : BFInterpreterState) : option nat :=
  peek (loopStartIndices this).

(** One round of the loop of [InterpretInternal]: the test
    [i < code.length], the [switch], and [i ++].  When the loop stack is
    empty, [PeekLoopStartIndices] is [undefined]; [i ++] makes it [NaN]
    and [NaN < code.length] is false, so the loop is left. *)
Definition loop_round (code stdIn : jsstring) (i : nat) (stdOut : jsstring)
  (state : BFInterpreterState) : round BFInterpreterState :=
  match code !! i with
  | None => Leave stdOut state
  | Some token =>
      if tok_is token ">" then
        match MoveMemoryPointer state 1 with
        | (state', None) => Next (S i) stdOut state'
        | (state', Some e) => Raise e state'
        end
      else if tok_is token "<" then
        match MoveMemoryPointer state (-1) with
        | (state', None) => Next (S i) stdOut state'
        | (state', Some e) => Raise e state'
        end
      else if tok_is token "+" then
        Next (S i) stdOut (IncrementMemoryLocation state 1)
      else if tok_is token "-" then
        Next (S i) stdOut (IncrementMemoryLocation state (-1))
      else if tok_is token "." then
        Next (S i) (stdOut ++ [GetCharForStdOut state]) state
      else if tok_is token "," then
        Next (S i) stdOut (ReadCharFromStdIn state stdIn)
      else if tok_is token "[" then
        Next (S i) stdOut (BeginNewLoop state i)
      else if tok_is token "]" then
        if IsMemoryLocationZero state then
          Next (S i) stdOut (EndLoop state)
        else
          match PeekLoopStartIndices state with
          | Some j => Next (S j) stdOut state
          | None => Leave stdOut state
          end
      else Raise (InvalidCharacter token i) state
  end.


Record BFInterpreter : Type := mkInterpreter {
  code : jsstring;
  options : BFInterpreterOptions
}.

(** [new BFInterpreter(code, options?)] *)
Definition new_BFInterpreter (code : jsstring)
  (options : option BFInterpreterOptions) : BFInterpreter :=
  {| code := code;
     options := default new_BFInterpreterOptions options |}.

(** [InterpretInternal(code, state)]; the input is [this.options.StdIn]. *)
Definition InterpretInternal (fuel : nat) (this : BFInterpreter)
  (code : jsstring) (state : BFInterpreterState)
  : option (completion jsstring * BFInterpreterState) :=
  for_loop (loop_round code (StdIn (options this))) fuel 0 [] state.

(** [Interpret()]: what it returns or throws, the interpreter object
    after the call (no field of it is assigned), and the events. *)
Definition Interpret (fuel : nat) (this : BFInterpreter)
  : option (completion jsstring * BFInterpreter * list Event) :=
  match new_BFInterpreterState (options this) with
  | Throw e => Some (Throw e, this, [])
  | Normal state =>
      match InterpretInternal fuel this (code this) state with
      | None => None
      | Some (Throw e, _) => Some (Throw e, this, [])
      | Some (Normal stdOut, _) =>
          Some (Normal stdOut, this,
                WriteOutput (options this) stdOut
                ++ OnComplete (options this) stdOut)
      end
  end.

End StateObject.

(** ** The class with the run state in its own fields (first TypeScript
    file) *)

Module InstanceFields.

Record BFInterpreter : Type := mkInterpreter {
  code : jsstring;
  options : BFInterpreterOptions;
  memoryPointer : Z;
  memory : Array;
  stdInPointer : nat;
  loopStartIndices : list nat
}.

(** [new BFInterpreter(code, options?)]: the field initialisers, the two
    assignments, then [InitializeMemory]. *)
Definition new_BFInterpreter (code : jsstring)
  (options : option BFInterpreterOptions) : completion BFInterpreter :=
  let options := default new_BFInterpreterOptions options in
  match new_Array_fill0 (MemoryWords options) with
  | Some m =>
      Normal {| code := code; options := options; memoryPointer := 0;
                memory := m; stdInPointer := 0; loopStartIndices := [] |}
  | None => Throw RangeError_invalid_array_length
  end.

(** [MoveMemoryPointer]: the pointer is moved first and checked after,
    against [this.options.MemoryWords]. *)
Definition MoveMemoryPointer (this : BFInterpreter) (forward : Z)
  : BFInterpreter * option Error :=
  let this' :=
    {| code := code this; options := options this;
       memoryPointer := memoryPointer this + forward;
       memory := memory this;
       stdInPointer := stdInPointer this;
       loopStartIndices := loopStartIndices this |} in
  if memoryPointer this' <? 0 then
    (this', Some (PointerBelowZero (memoryPointer this')
                    (stdInPointer this') (MemoryWords (options this'))))
  else if memoryPointer this' >? MemoryWords (options this') then
    (this', Some (PointerAboveLimit (MemoryWords (options this') - 1)
                    (memoryPointer this') (stdInPointer this')
                    (MemoryWords (options this'))))
  else (this', None).

Definition with_memory (this : BFInterpreter) (m : Array) : BFInterpreter :=
  {| code := code this; options := options this;
     memoryPointer := memoryPointer this;
     memory := m;
     stdInPointer := stdInPointer this;
     loopStartIndices := loopStartIndices this |}.

Definition with_loopStartIndices (this : BFInterpreter) (l : list nat)
  : BFInterpreter :=
  {| code := code this; options := options this;
     memoryPointer := memoryPointer this;
     memory := memory this;
     stdInPointer := stdInPointer this;
     loopStartIndices := l |}.

(** [this.memory[this.memoryPointer] += amount] *)
Definition IncrementMemoryLocation (this : BFInterpreter) (amount : Z)
  : BFInterpreter :=
  with_memory this
    (aset (memory this) (memoryPointer this)
       (add (ToNumber (aget (memory this) (memoryPointer this))) amount)).

(** [ReadCharFromStdIn]: as in the other class, the branch under
    [charCode === NaN] never runs. *)
Definition ReadCharFromStdIn (this : BFInterpreter) : BFInterpreter :=
  let charCode := charCodeAt (StdIn (options this)) (stdInPointer this) in
  {| code := code this; options := options this;
     memoryPointer := memoryPointer this;
     memory := aset (memory this) (memoryPointer this) charCode;
     stdInPointer := S (stdInPointer this);
     loopStartIndices := loopStartIndices this |}.

Definition GetCharForStdOut (this : BFInterpreter) : Z :=
  fromCharCode (aget (memory this) (memoryPointer this)).

Definition IsMemoryLocationZero (this : BFInterpreter) : bool :=
  strict_eq_zero (aget (memory this) (memoryPointer this)).

Definition PeekLoopStartIndices (this : BFInterpreter) : option nat :=
  peek (loopStartIndices this).

(** One round of the loop of [InterpretInternal] (see
    [StateObject.loop_round] for the empty loop stack). *)
Definition loop_round (code : jsstring) (i : nat) (stdOut : jsstring)
  (this : BFInterpreter) : round BFInterpreter :=
  match code !! i with
  | None => Leave stdOut this
  | Some token =>
      if tok_is token ">" then
        match MoveMemoryPointer this 1 with
        | (this', None) => Next (S i) stdOut this'
        | (this', Some e) => Raise e this'
        end
      else if tok_is token "<" then
        match MoveMemoryPointer this (-1) with
        | (this', None) => Next (S i) stdOut this'
        | (this', Some e) => Raise e this'
        end
      else if tok_is token "+" then
        Next (S i) stdOut (IncrementMemoryLocation this 1)
      else if tok_is token "-" then
        Next (S i) stdOut (IncrementMemoryLocation this (-1))
      else if tok_is token "." then
        Next (S i) (stdOut ++ [GetCharForStdOut this]) this
      else if tok_is token "," then
        Next (S i) stdOut (ReadCharFromStdIn this)
      else if tok_is token "[" then
        Next (S i) stdOut
          (with_loopStartIndices this (push (loopStartIndices this) i))
      else if tok_is token "]" then
        if IsMemoryLocationZero this then
          Next (S i) stdOut
            (with_loopStartIndices this (pop (loopStartIndices this)))
        else
          match PeekLoopStartIndices this with
          | Some j => Next (S j) stdOut this
          | None => Leave stdOut this
          end
      else Raise (InvalidCharacter token i) this
  end.

Definition InterpretInternal (fuel : nat) (this : BFInterpreter)
  (code : jsstring) : option (completion jsstring * BFInterpreter) :=
  for_loop (loop_round code) fuel 0 [] this.

(** [Interpret()]: what it returns or throws, the interpreter object
    after the call, and the events. *)
Definition Interpret (fuel : nat) (this : BFInterpreter)
  : option (completion jsstring * BFInterpreter * list Event) :=
  match InterpretInternal fuel this (code this) with
  | None => None
  | Some (Throw e, this') => Some (Throw e, this', [])
  | Some (Normal stdOut, this') =>
      Some (Normal stdOut, this',
            WriteOutput (options this') stdOut
            ++ OnComplete (options this') stdOut)
  end.

End InstanceFields.

(** ** The function [BF] of [bf.js] *)

Module BFjs.

(** The properties of [opts] the function reads; [None] is a property
    that is not there. *)
Record Opts : Type := mkOpts {
  opt_memory : option Z;
  opt_stdin : option jsstring;
  opt_id : option string;
  opt_quiet : option bool
}.

(** [{}] *)
Definition no_opts : Opts :=
  {| opt_memory := None; opt_stdin := None; opt_id := None;
     opt_quiet := None |}.

(** The local variables of the loop, [i] and [std_out] apart. *)
Record Locals : Type := mkLocals {
  memory : Array;
  mem_index : Z;
  loop_start_indices : list nat;
  stdin_index : nat
}.

(** [opts.memory || 30000]: zero is falsy. *)
Definition mem_size_of (opts : Opts) : Z :=
  match opt_memory opts with
  | Some z => if z =? 0 then 30000 else z
  | None => 30000
  end.

(** [opts.stdin || ""] *)
Definition stdin_of (opts : Opts) : jsstring := default [] (opt_stdin opts).

(** The tape after the [push] loop: [mem_size] zeros, none when
    [mem_size] is negative.  An array cannot grow to 2^32 elements:
    [push] raises there. *)
Definition initial_memory (mem_size : Z) : completion Array :=
  if bool_decide (mem_size < 4294967296)
  then Normal {| props := zeros mem_size; alength := Z.max 0 mem_size |}
  else Throw RangeError_invalid_array_length.

Definition with_memory (l : Locals) (m : Array) : Locals :=
  {| memory := m; mem_index := mem_index l;
     loop_start_indices := loop_start_indices l;
     stdin_index := stdin_index l |}.

Definition with_mem_index (l : Locals) (p : Z) : Locals :=
  {| memory := memory l; mem_index := p;
     loop_start_indices := loop_start_indices l;
     stdin_index := stdin_index l |}.

Definition with_loop_start_indices (l : Locals) (s : list nat) : Locals :=
  {| memory := memory l; mem_index := mem_index l;
     loop_start_indices := s;
     stdin_index := stdin_index l |}.

(** [memory[mem_index]++] and [memory[mem_index]--] *)
Definition bump (l : Locals) (d : Z) : Locals :=
  with_memory l
    (aset (memory l) (mem_index l)
       (add (ToNumber (aget (memory l) (mem_index l))) d)).

(** [memory[mem_index] = stdin.charCodeAt(stdin_index++) || 0] *)
Definition read (l : Locals) (stdin : jsstring) : Locals :=
  {| memory := aset (memory l) (mem_index l)
                 (or_zero (charCodeAt stdin (stdin_index l)));
     mem_index := mem_index l;
     loop_start_indices := loop_start_indices l;
     stdin_index := S (stdin_index l) |}.

(** One round of the [for] loop.  A token that is none of the eight
    falls through the [if] chain: nothing is done.  An empty loop stack
    at a taken ["]"] makes [i] [undefined] and ends the loop. *)
Definition loop_round (code stdin : jsstring) (i : nat) (std_out : jsstring)
  (l : Locals) : round Locals :=
  match code !! i with
  | None => Leave std_out l
  | Some tok =>
      if tok_is tok ">" then
        Next (S i) std_out (with_mem_index l (mem_index l + 1))
      else if tok_is tok "<" then
        Next (S i) std_out (with_mem_index l (mem_index l - 1))
      else if tok_is tok "+" then
        Next (S i) std_out (bump l 1)
      else if tok_is tok "-" then
        Next (S i) std_out (bump l (-1))
      else if tok_is tok "." then
        Next (S i)
          (std_out ++ [fromCharCode (aget (memory l) (mem_index l))]) l
      else if tok_is tok "," then
        Next (S i) std_out (read l stdin)
      else if tok_is tok "[" then
        Next (S i) std_out
          (with_loop_start_indices l (push (loop_start_indices l) i))
      else if tok_is tok "]" then
        if strict_eq_zero (aget (memory l) (mem_index l)) then
          Next (S i) std_out
            (with_loop_start_indices l (pop (loop_start_indices l)))
        else
          match peek (loop_start_indices l) with
          | Some j => Next (S j) std_out l
          | None => Leave std_out l
          end
      else Next (S i) std_out l
  end.

(** What is written after the loop: to the console unless [opts.quiet]
    is set and true, or under the element of id [opts.id] when there is
    one (whatever [opts.quiet] is). *)
Definition render (opts : Opts) (std_out : jsstring) : list Event :=
  match opt_id opts with
  | None =>
      match opt_quiet opts with
      | Some true => []
      | _ => [ConsoleLog std_out]
      end
  | Some id => [AppendDivById id "bfjs" std_out]
  end.

(** The local variables when the loop starts. *)
Definition initial_locals (memory : Array) : Locals :=
  {| memory := memory; mem_index := 0; loop_start_indices := [];
     stdin_index := 0 |}.

(** [BF(code, opts)]; [opts = opts || {}]. *)
Definition BF (fuel : nat) (code : jsstring) (opts : option Opts)
  : option (completion jsstring * list Event) :=
  let opts := default no_opts opts in
  let mem_size := mem_size_of opts in
  let stdin := stdin_of opts in
  match initial_memory mem_size with
  | Throw e => Some (Throw e, [])
  | Normal memory =>
      match for_loop (loop_round code stdin) fuel 0 []
              (initial_locals memory) with
      | None => None
      | Some (Throw e, _) => Some (Throw e, [])
      | Some (Normal std_out, _) =>
          Some (Normal std_out, render opts std_out)
      end
  end.

End BFjs.

(** ** Notions the statements use *)

(** The instruction set. *)
Definition instruction (token : Z) : bool :=
  tok_is token ">" || tok_is token "<" || tok_is token "+"
  || tok_is token "-" || tok_is token "." || tok_is token ","
  || tok_is token "[" || tok_is token "]".

(** The instructions that do not write to the tape, and those that write
    to the current cell. *)
Definition keeps_tape (token : Z) : bool :=
  tok_is token ">" || tok_is token "<" || tok_is token "."
  || tok_is token "[" || tok_is token "]".

Definition writes_current (token : Z) : bool :=
  tok_is token "+" || tok_is token "-" || tok_is token ",".

(** The effect on the tape of the instruction [token], run with the data
    pointer at [p]: no cell changes, or no cell but the one at [p]. *)
Definition tape_effect (token : Z) (p : Z) (before after : Array) : Prop :=
  (keeps_tape token = true → after = before)
  ∧ (writes_current token = true →
     ∀ k, k ≠ p → aget after k = aget before k).

(** Every position on a loop stack is a position of ["["] in the script
    (and so a valid index of it). *)
Definition loop_starts_ok (code : jsstring) (stack : list nat) : Prop :=
  Forall (λ p, code !! p = Some (unit_of "[")) stack.

(** The loops open after a stretch of script: [scan code pos stack] reads
    [code], whose first character stands at position [pos], and keeps the
    positions of the ["["] that no later ["]"] has closed, innermost last.
    [open_loops code i] are the loops open just before position [i]; the
    last of them, if any, is the ["["] that a ["]"] at [i] matches. *)
Fixpoint scan (code : jsstring) (pos : nat) (stack : list nat) : list nat :=
  match code with
  | [] => stack
  | c :: rest =>
      scan rest (S pos)
        (if tok_is c "[" then push stack pos
         else if tok_is c "]" then pop stack
         else stack)
  end.

Definition open_loops (code : jsstring) (i : nat) : list nat :=
  scan (take i code) 0 [].

(** [n] times the pair [",."]. *)
Definition copy_script (n : nat) : jsstring :=
  List.concat (replicate n (str ",.")).

(** What a call gave back, without the rest. *)
Definition returned {A B : Type} (r : option (completion jsstring * A * B))
  : option (completion jsstring) :=
  match r with
  | Some (c, _, _) => Some c
  | None => None
  end.

(** The options with other output settings. *)
Definition with_sinks (o : BFInterpreterOptions) (quiet : bool)
  (el : option HTMLElement) (cb : option ICompleteCallback)
  : BFInterpreterOptions :=
  {| MemoryWords := MemoryWords o; StdIn := StdIn o; OutputElement := el;
     Quiet := quiet; CompleteCallback := cb |}.

(** An interpreter object of the first class with other output
    settings. *)
Definition InstanceFields_with_sinks (this : InstanceFields.BFInterpreter)
  (quiet : bool) (el : option HTMLElement) (cb : option ICompleteCallback)
  : InstanceFields.BFInterpreter :=
  {| InstanceFields.code := InstanceFields.code this;
     InstanceFields.options :=
       with_sinks (InstanceFields.options this) quiet el cb;
     InstanceFields.memoryPointer := InstanceFields.memoryPointer this;
     InstanceFields.memory := InstanceFields.memory this;
     InstanceFields.stdInPointer := InstanceFields.stdInPointer this;
     InstanceFields.loopStartIndices :=
       InstanceFields.loopStartIndices this |}.

(** A round, with its state seen through [f]. *)
Definition round_map {S T : Type} (f : S → T) (r : round S) : round T :=
  match r with
  | Next i stdOut st => Next i stdOut (f st)
  | Leave stdOut st => Leave stdOut (f st)
  | Raise e st => Raise e (f st)
  end.

(** Options for the examples: an element to write under and a callback. *)
Definition loud_options (words : Z) (stdIn : jsstring)
  : BFInterpreterOptions :=
  {| MemoryWords := words; StdIn := stdIn; OutputElement := Some 1%nat;
     Quiet := false; CompleteCallback := Some 2%nat |}.

(** Options for the examples: silent, no callback. *)
Definition quiet_options (words : Z) (stdIn : jsstring)
  : BFInterpreterOptions :=
  {| MemoryWords := words; StdIn := stdIn; OutputElement := None;
     Quiet := true; CompleteCallback := None |}.

Definition quiet_opts (words : Z) (stdin : jsstring) : BFjs.Opts :=
  {| BFjs.opt_memory := Some words; BFjs.opt_stdin := Some stdin;
     BFjs.opt_id := None; BFjs.opt_quiet := Some true |}.

(** A state for the examples: the pointer at 0, one cell written, a given
    loop stack. *)
Definition state_with (cell : number) (stack : list nat)
  : StateObject.BFInterpreterState :=
  {| StateObject.memoryPointer := 0;
     StateObject.memory := aset {| props := ∅; alength := 0 |} 0 cell;
     StateObject.stdInPointer := 0;
     StateObject.loopStartIndices := stack |}.

(** ** Notions for the further properties *)

(** What holds of the output and of the state wherever a run stands or
    ends without raising. *)
Definition while_running {S : Type} (P : jsstring → S → Prop) (r : round S)
  : Prop :=
  match r with
  | Next _ stdOut st | Leave stdOut st => P stdOut st
  | Raise _ _ => True
  end.

(** The round a finished loop ended with. *)
Definition last_round {S : Type} (c : completion jsstring) (st : S)
  : round S :=
  match c with
  | Normal stdOut => Leave stdOut st
  | Throw e => Raise e st
  end.

(** [n] times ["+"], then ["."]. *)
Definition plus_script (n : nat) : jsstring :=
  replicate n (unit_of "+") ++ [unit_of "."].

(** [n] times the pair ["+>"]: write a cell, move right. *)
Definition walk_script (n : nat) : jsstring :=
  List.concat (replicate n (str "+>")).

(** The pointer and the tape of an interpreter object of the first class
    are in range: the pointer from 0 to [MemoryWords], the tape of
    [MemoryWords] cells or one more, and the first [MemoryWords] cells
    written. *)
Definition InstanceFields_in_range (this : InstanceFields.BFInterpreter)
  : Prop :=
  let words := MemoryWords (InstanceFields.options this) in
  0 ≤ InstanceFields.memoryPointer this ≤ words
  ∧ words ≤ alength (InstanceFields.memory this) ≤ words + 1
  ∧ ∀ k, 0 ≤ k < words → is_Some (aget (InstanceFields.memory this) k).

(** The same for a state object made for [words] words: here the pointer
    goes up to the length of the tape, which has no upper limit. *)
Definition StateObject_in_range (words : Z)
  (st : StateObject.BFInterpreterState) : Prop :=
  0 ≤ StateObject.memoryPointer st ≤ alength (StateObject.memory st)
  ∧ words ≤ alength (StateObject.memory st)
  ∧ ∀ k, 0 ≤ k < words → is_Some (aget (StateObject.memory st) k).

(** What an error raised by a round at position [i], in a state with the
    pointer at [p] and the input cursor at [cursor], says of the script
    and of the state, [limit] being the greatest pointer the check
    accepts. *)
Definition accurate_error (code : jsstring) (i : nat) (p : Z)
  (cursor : nat) (limit : Z) (e : Error) : Prop :=
  match e with
  | InvalidCharacter c j =>
      j = i ∧ code !! i = Some c ∧ instruction c = false
  | PointerBelowZero q sp words =>
      code !! i = Some (unit_of "<") ∧ p = 0 ∧ q = -1
      ∧ sp = cursor ∧ words = limit
  | PointerAboveLimit greatest q sp words =>
      code !! i = Some (unit_of ">") ∧ p = limit ∧ q = limit + 1
      ∧ greatest = limit - 1 ∧ sp = cursor ∧ words = limit
  | RangeError_invalid_array_length => True
  end.

(** ** Facts about the JavaScript values *)

Lemma tok_is_true token a : tok_is token a = true ↔ token = unit_of a.
Proof. unfold tok_is. apply Z.eqb_eq. Qed.

Lemma tok_is_refl a : tok_is (unit_of a) a = true.
Proof. by apply tok_is_true. Qed.

Lemma instruction_false token :
  instruction token = false →
  tok_is token ">" = false ∧ tok_is token "<" = false
  ∧ tok_is token "+" = false ∧ tok_is token "-" = false
  ∧ tok_is token "." = false ∧ tok_is token "," = false
  ∧ tok_is token "[" = false ∧ tok_is token "]" = false.
Proof.
  unfold instruction. intros H.
  repeat (apply orb_false_elim in H as [H ?]). by repeat split.
Qed.

Lemma aget_aset_eq a i x : aget (aset a i x) i = Some x.
Proof. unfold aget, aset; simpl. apply lookup_insert_eq. Qed.

Lemma aget_aset_ne a i j x : i ≠ j → aget (aset a i x) j = aget a j.
Proof. intros. unfold aget, aset; simpl. by apply lookup_insert_ne. Qed.

Lemma lookup_zeros n i :
  zeros n !! i = if bool_decide (0 ≤ i < n) then Some (Num 0) else None.
Proof.
  unfold zeros. case_bool_decide as Hi.
  - apply elem_of_list_to_map_1.
    + rewrite <- list_fmap_compose. simpl.
      rewrite list_fmap_id. apply NoDup_seqZ.
    + apply list_elem_of_fmap. exists i. split; [done |].
      apply elem_of_seqZ. lia.
  - apply not_elem_of_list_to_map_1.
    rewrite <- list_fmap_compose. simpl. rewrite list_fmap_id.
    rewrite elem_of_seqZ. lia.
Qed.

Lemma fromCharCode_unit c : 0 ≤ c < 65536 → fromCharCode (Some (Num c)) = c.
Proof. intros. unfold fromCharCode; simpl. by apply Z.mod_small. Qed.

Lemma Forall_pop (P : nat → Prop) l : Forall P l → Forall P (pop l).
Proof.
  unfold pop. induction 1 as [| x l Hx Hl IH]; simpl; [constructor |].
  destruct l; [constructor |]. constructor; [done | apply IH].
Qed.

Lemma Forall_push (P : nat → Prop) l x :
  Forall P l → P x → Forall P (push l x).
Proof.
  intros. unfold push. apply Forall_app. split; [done | by constructor].
Qed.

Lemma peek_push l x : peek (push l x) = Some x.
Proof. apply last_snoc. Qed.

Lemma pop_push l x : pop (push l x) = l.
Proof. apply removelast_last. Qed.

Lemma peek_elem (P : nat → Prop) l x : Forall P l → peek l = Some x → P x.
Proof.
  intros Hl Hx. unfold peek in Hx. apply last_Some in Hx as [l' ->].
  apply Forall_app in Hl as [_ Hl]. by inversion Hl.
Qed.

(** ** Facts about the loop *)

Section ForLoopFacts.

Context {S : Type}.
Variable body : nat → jsstring → S → round S.

(** More rounds do not change a result. *)
Lemma for_loop_more fuel fuel' i stdOut st r :
  for_loop body fuel i stdOut st = Some r →
  (fuel ≤ fuel')%nat →
  for_loop body fuel' i stdOut st = Some r.
Proof.
  revert fuel' i stdOut st.
  induction fuel as [| fuel IH]; intros fuel' i stdOut st Hr Hle;
    [discriminate |].
  destruct fuel' as [| fuel']; [lia |]. simpl in *.
  destruct (body i stdOut st); [| done | done].
  apply IH; [done | lia].
Qed.

(** A run has one result, whatever the number of rounds allowed. *)
Lemma for_loop_agree fuel1 fuel2 i stdOut st r1 r2 :
  for_loop body fuel1 i stdOut st = Some r1 →
  for_loop body fuel2 i stdOut st = Some r2 →
  r1 = r2.
Proof.
  intros H1 H2.
  apply for_loop_more with (fuel' := (fuel1 `max` fuel2)%nat) in H1;
    [| lia].
  apply for_loop_more with (fuel' := (fuel1 `max` fuel2)%nat) in H2;
    [| lia].
  congruence.
Qed.

(** A run that stands at a round after [n] rounds goes on from there. *)
Lemma for_loop_after n fuel i stdOut st i' stdOut' st' :
  after body n (Next i stdOut st) = Next i' stdOut' st' →
  for_loop body (n + fuel) i stdOut st = for_loop body fuel i' stdOut' st'.
Proof.
  revert i stdOut st.
  induction n as [| n IH]; intros i stdOut st Hn; simpl in *.
  - by inversion Hn.
  - destruct (body i stdOut st) as [i1 o1 s1 | o1 s1 | e1 s1].
    + by apply IH.
    + destruct n; discriminate.
    + destruct n; discriminate.
Qed.

(** What every round keeps holds all along a run. *)
Lemma after_invariant (P : S → Prop) :
  (∀ i stdOut st, P st → P (state_of (body i stdOut st))) →
  ∀ n r, P (state_of r) → P (state_of (after body n r)).
Proof.
  intros Hstep. induction n as [| n IH]; intros r Hr; simpl; [done |].
  destruct r as [i o s | o s | e s]; [| done | done].
  apply IH, Hstep, Hr.
Qed.

(** The same for what relates the position and the state. *)
Lemma after_position_invariant (P : nat → S → Prop) :
  (∀ i stdOut st,
     P i st →
     match body i stdOut st with
     | Next i' _ st' => P i' st'
     | _ => True
     end) →
  ∀ n i stdOut st i' stdOut' st',
    P i st →
    after body n (Next i stdOut st) = Next i' stdOut' st' →
    P i' st'.
Proof.
  intros Hstep. induction n as [| n IH];
    intros i stdOut st i' stdOut' st' HP Hn; simpl in Hn.
  - by inversion Hn; subst.
  - specialize (Hstep i stdOut st HP).
    destruct (body i stdOut st) as [i1 o1 s1 | o1 s1 | e1 s1].
    + exact (IH _ _ _ _ _ _ Hstep Hn).
    + destruct n; discriminate.
    + destruct n; discriminate.
Qed.

(** The state a finished run ends in is the state of a round of it. *)
Lemma for_loop_state fuel i stdOut st c st' :
  for_loop body fuel i stdOut st = Some (c, st') →
  ∃ n, st' = state_of (after body n (Next i stdOut st)).
Proof.
  revert i stdOut st.
  induction fuel as [| fuel IH]; intros i stdOut st H; [discriminate |].
  simpl in H.
  destruct (body i stdOut st) as [i1 o1 s1 | o1 s1 | e1 s1] eqn:Hb.
  - destruct (IH _ _ _ H) as [n ->]. exists (Datatypes.S n). simpl.
    by rewrite Hb.
  - inversion H; subst. exists 1%nat. simpl. by rewrite Hb.
  - inversion H; subst. exists 1%nat. simpl. by rewrite Hb.
Qed.

End ForLoopFacts.

(** Two loops whose rounds agree through [f] run alike. *)
Lemma for_loop_map {S T : Type} (f : S → T)
  (body1 : nat → jsstring → S → round S)
  (body2 : nat → jsstring → T → round T) :
  (∀ i stdOut st, body2 i stdOut (f st) = round_map f (body1 i stdOut st)) →
  ∀ fuel i stdOut st,
    for_loop body2 fuel i stdOut (f st)
    = (λ r, (r.1, f r.2)) <$> for_loop body1 fuel i stdOut st.
Proof.
  intros Hsim. induction fuel as [| fuel IH]; intros i stdOut st; [done |].
  simpl. rewrite Hsim.
  destruct (body1 i stdOut st) as [i1 o1 s1 | o1 s1 | e1 s1]; simpl;
    [apply IH | done | done].
Qed.

(** ** The rounds, instruction by instruction *)

(** Case analysis on the token of a round, in the order of the source. *)
Ltac token_case token c :=
  let H := fresh "Htok" in
  destruct (tok_is token c) eqn:H;
  [apply tok_is_true in H; subst token |].

Ltac token_cases token :=
  token_case token ">"%char; [|
  token_case token "<"%char; [|
  token_case token "+"%char; [|
  token_case token "-"%char; [|
  token_case token "."%char; [|
  token_case token ","%char; [|
  token_case token "["%char; [|
  token_case token "]"%char ]]]]]]].

(** [MoveMemoryPointer] moves the pointer and nothing else, whether it
    raises or not. *)
Lemma StateObject_Move_state this forward :
  (StateObject.MoveMemoryPointer this forward).1
  = {| StateObject.memoryPointer :=
         StateObject.memoryPointer this + forward;
       StateObject.memory := StateObject.memory this;
       StateObject.stdInPointer := StateObject.stdInPointer this;
       StateObject.loopStartIndices := StateObject.loopStartIndices this |}.
Proof. unfold StateObject.MoveMemoryPointer. by repeat case_match. Qed.

Lemma InstanceFields_Move_state this forward :
  (InstanceFields.MoveMemoryPointer this forward).1
  = {| InstanceFields.code := InstanceFields.code this;
       InstanceFields.options := InstanceFields.options this;
       InstanceFields.memoryPointer :=
         InstanceFields.memoryPointer this + forward;
       InstanceFields.memory := InstanceFields.memory this;
       InstanceFields.stdInPointer := InstanceFields.stdInPointer this;
       InstanceFields.loopStartIndices :=
         InstanceFields.loopStartIndices this |}.
Proof. unfold InstanceFields.MoveMemoryPointer. by repeat case_match. Qed.

Ltac move_cases L this forward :=
  let Hm := fresh "Hmove" in
  pose proof (L this forward) as Hm;
  match type of Hm with
  | (?M).1 = _ => destruct M as [? [?|]]
  end;
  simpl in Hm; subst; simpl.

Lemma StateObject_round_tape code stdIn i stdOut st token :
  code !! i = Some token →
  tape_effect token (StateObject.memoryPointer st) (StateObject.memory st)
    (StateObject.memory
       (state_of (StateObject.loop_round code stdIn i stdOut st))).
Proof.
  intros Hi. unfold StateObject.loop_round. rewrite Hi.
  token_cases token; simpl.
  - move_cases StateObject_Move_state st 1; by split.
  - move_cases StateObject_Move_state st (-1); by split.
  - split; [discriminate |]. intros _ k Hk. by apply aget_aset_ne.
  - split; [discriminate |]. intros _ k Hk. by apply aget_aset_ne.
  - by split.
  - split; [discriminate |]. intros _ k Hk. by apply aget_aset_ne.
  - by split.
  - repeat case_match; by split.
  - by split.
Qed.

Lemma InstanceFields_round_tape code i stdOut this token :
  code !! i = Some token →
  tape_effect token (InstanceFields.memoryPointer this)
    (InstanceFields.memory this)
    (InstanceFields.memory
       (state_of (InstanceFields.loop_round code i stdOut this))).
Proof.
  intros Hi. unfold InstanceFields.loop_round. rewrite Hi.
  token_cases token; simpl.
  - move_cases InstanceFields_Move_state this 1; by split.
  - move_cases InstanceFields_Move_state this (-1); by split.
  - split; [discriminate |]. intros _ k Hk. by apply aget_aset_ne.
  - split; [discriminate |]. intros _ k Hk. by apply aget_aset_ne.
  - by split.
  - split; [discriminate |]. intros _ k Hk. by apply aget_aset_ne.
  - by split.
  - repeat case_match; by split.
  - by split.
Qed.

Lemma BFjs_round_tape code stdin i std_out l tok :
  code !! i = Some tok →
  tape_effect tok (BFjs.mem_index l) (BFjs.memory l)
    (BFjs.memory (state_of (BFjs.loop_round code stdin i std_out l))).
Proof.
  intros Hi. unfold BFjs.loop_round. rewrite Hi.
  token_cases tok; simpl.
  - by split.
  - by split.
  - split; [discriminate |]. intros _ k Hk. by apply aget_aset_ne.
  - split; [discriminate |]. intros _ k Hk. by apply aget_aset_ne.
  - by split.
  - split; [discriminate |]. intros _ k Hk. by apply aget_aset_ne.
  - by split.
  - repeat case_match; by split.
  - by split.
Qed.

(** Every round keeps the loop stack a stack of positions of ["["]. *)
Lemma StateObject_round_loop_starts code stdIn i stdOut st :
  loop_starts_ok code (StateObject.loopStartIndices st) →
  loop_starts_ok code
    (StateObject.loopStartIndices
       (state_of (StateObject.loop_round code stdIn i stdOut st))).
Proof.
  intros Hok. unfold StateObject.loop_round.
  destruct (code !! i) as [token |] eqn:Hi; [| done].
  token_cases token; simpl; try done.
  - by move_cases StateObject_Move_state st 1.
  - by move_cases StateObject_Move_state st (-1).
  - by apply Forall_push.
  - destruct (StateObject.IsMemoryLocationZero st); simpl.
    + by apply Forall_pop.
    + by destruct (StateObject.PeekLoopStartIndices st).
Qed.

Lemma InstanceFields_round_loop_starts code i stdOut this :
  loop_starts_ok code (InstanceFields.loopStartIndices this) →
  loop_starts_ok code
    (InstanceFields.loopStartIndices
       (state_of (InstanceFields.loop_round code i stdOut this))).
Proof.
  intros Hok. unfold InstanceFields.loop_round.
  destruct (code !! i) as [token |] eqn:Hi; [| done].
  token_cases token; simpl; try done.
  - by move_cases InstanceFields_Move_state this 1.
  - by move_cases InstanceFields_Move_state this (-1).
  - by apply Forall_push.
  - destruct (InstanceFields.IsMemoryLocationZero this); simpl.
    + by apply Forall_pop.
    + by destruct (InstanceFields.PeekLoopStartIndices this).
Qed.

Lemma BFjs_round_loop_starts code stdin i std_out l :
  loop_starts_ok code (BFjs.loop_start_indices l) →
  loop_starts_ok code
    (BFjs.loop_start_indices
       (state_of (BFjs.loop_round code stdin i std_out l))).
Proof.
  intros Hok. unfold BFjs.loop_round.
  destruct (code !! i) as [tok |] eqn:Hi; [| done].
  token_cases tok; simpl; try done.
  - by apply Forall_push.
  - destruct (strict_eq_zero _); simpl.
    + by apply Forall_pop.
    + by destruct (peek _).
Qed.

(** A round never touches the script or the options of the interpreter
    object it runs on. *)
Lemma InstanceFields_round_code code i stdOut this :
  InstanceFields.code
    (state_of (InstanceFields.loop_round code i stdOut this))
  = InstanceFields.code this
  ∧ InstanceFields.options
      (state_of (InstanceFields.loop_round code i stdOut this))
    = InstanceFields.options this.
Proof.
  unfold InstanceFields.loop_round.
  destruct (code !! i) as [token |]; [| done].
  token_cases token; simpl; try done.
  - by move_cases InstanceFields_Move_state this 1.
  - by move_cases InstanceFields_Move_state this (-1).
  - destruct (InstanceFields.IsMemoryLocationZero this); simpl; [done |].
    by destruct (InstanceFields.PeekLoopStartIndices this).
Qed.

(** The round at a ["]"] with a loop start on the stack. *)
Lemma StateObject_round_close code stdIn i stdOut st l t :
  code !! i = Some (unit_of "]") →
  StateObject.loopStartIndices st = push l t →
  StateObject.loop_round code stdIn i stdOut st
  = if StateObject.IsMemoryLocationZero st
    then Next (S i) stdOut (StateObject.with_loopStartIndices st l)
    else Next (S t) stdOut st.
Proof.
  intros Hi Hst. unfold StateObject.loop_round. rewrite Hi. simpl.
  unfold StateObject.EndLoop, StateObject.PeekLoopStartIndices.
  rewrite Hst, peek_push, pop_push. done.
Qed.

Lemma InstanceFields_round_close code i stdOut this l t :
  code !! i = Some (unit_of "]") →
  InstanceFields.loopStartIndices this = push l t →
  InstanceFields.loop_round code i stdOut this
  = if InstanceFields.IsMemoryLocationZero this
    then Next (S i) stdOut (InstanceFields.with_loopStartIndices this l)
    else Next (S t) stdOut this.
Proof.
  intros Hi Hst. unfold InstanceFields.loop_round. rewrite Hi. simpl.
  unfold InstanceFields.PeekLoopStartIndices.
  rewrite Hst, peek_push, pop_push. done.
Qed.

Lemma BFjs_round_close code stdin i std_out l s t :
  code !! i = Some (unit_of "]") →
  BFjs.loop_start_indices l = push s t →
  BFjs.loop_round code stdin i std_out l
  = if strict_eq_zero (aget (BFjs.memory l) (BFjs.mem_index l))
    then Next (S i) std_out (BFjs.with_loop_start_indices l s)
    else Next (S t) std_out l.
Proof.
  intros Hi Hst. unfold BFjs.loop_round. rewrite Hi. simpl.
  rewrite Hst, peek_push, pop_push. done.
Qed.

(** The round at a character outside the instruction set. *)
Lemma StateObject_round_invalid code stdIn i stdOut st token :
  code !! i = Some token → instruction token = false →
  StateObject.loop_round code stdIn i stdOut st
  = Raise (InvalidCharacter token i) st.
Proof.
  intros Hi Hno. unfold StateObject.loop_round. rewrite Hi.
  destruct (instruction_false _ Hno)
    as (-> & -> & -> & -> & -> & -> & -> & ->). done.
Qed.

Lemma InstanceFields_round_invalid code i stdOut this token :
  code !! i = Some token → instruction token = false →
  InstanceFields.loop_round code i stdOut this
  = Raise (InvalidCharacter token i) this.
Proof.
  intros Hi Hno. unfold InstanceFields.loop_round. rewrite Hi.
  destruct (instruction_false _ Hno)
    as (-> & -> & -> & -> & -> & -> & -> & ->). done.
Qed.

Lemma BFjs_round_invalid code stdin i std_out l tok :
  code !! i = Some tok → instruction tok = false →
  BFjs.loop_round code stdin i std_out l = Next (S i) std_out l.
Proof.
  intros Hi Hno. unfold BFjs.loop_round. rewrite Hi.
  destruct (instruction_false _ Hno)
    as (-> & -> & -> & -> & -> & -> & -> & ->). done.
Qed.

(** ** The loop stack and the brackets of the script *)

Lemma stack_cases (l : list nat) : l = [] ∨ ∃ l' x, l = push l' x.
Proof.
  destruct l as [| y l] using rev_ind; [by left | right]. by exists l, y.
Qed.

Lemma scan_app l1 l2 pos stack :
  scan (l1 ++ l2) pos stack
  = scan l2 (pos + List.length l1) (scan l1 pos stack).
Proof.
  revert pos stack. induction l1 as [| c l1 IH]; intros pos stack; simpl.
  - by rewrite Nat.add_0_r.
  - rewrite IH. f_equal. lia.
Qed.

Lemma open_loops_S code i c :
  code !! i = Some c →
  open_loops code (S i)
  = if tok_is c "[" then push (open_loops code i) i
    else if tok_is c "]" then pop (open_loops code i)
    else open_loops code i.
Proof.
  intros Hi. unfold open_loops.
  rewrite (take_S_r _ _ _ Hi), scan_app. simpl.
  rewrite length_take, Nat.min_l; [done |].
  apply lookup_lt_Some in Hi. lia.
Qed.

Lemma open_loops_past code i :
  code !! i = None → open_loops code (S i) = open_loops code i.
Proof.
  intros Hi. apply lookup_ge_None_1 in Hi. unfold open_loops.
  rewrite !take_ge; [done | lia | lia].
Qed.

(** The innermost loop open before [i] starts at a ["["] before [i], and
    the loops open right after this ["["] are those open before [i]: going
    back to it loses nothing. *)
Lemma open_loops_jump code i t :
  peek (open_loops code i) = Some t →
  (t < i)%nat
  ∧ code !! t = Some (unit_of "[")
  ∧ open_loops code (S t) = open_loops code i.
Proof.
  revert t. induction i as [i IH] using lt_wf_ind. intros t.
  destruct i as [| i]; [discriminate |].
  destruct (code !! i) as [c |] eqn:Hc.
  - rewrite (open_loops_S _ _ _ Hc).
    destruct (tok_is c "[") eqn:Hopen.
    + rewrite peek_push. intros [= <-].
      apply tok_is_true in Hopen. subst c.
      split; [lia |]. split; [done |].
      by rewrite (open_loops_S _ _ _ Hc), tok_is_refl.
    + destruct (tok_is c "]") eqn:Hclose.
      * destruct (stack_cases (open_loops code i)) as [Ho | (l' & t' & Ho)];
          rewrite Ho; [discriminate |].
        rewrite pop_push. intros Ht.
        destruct (IH i ltac:(lia) t') as (Hlt' & Ht' & Hjump').
        { by rewrite Ho, peek_push. }
        rewrite (open_loops_S _ _ _ Ht'), tok_is_refl, Ho in Hjump'.
        apply app_inj_tail in Hjump' as [Hl' _].
        destruct (IH t' ltac:(lia) t) as (Hlt & Htok & Hjump).
        { by rewrite Hl'. }
        split; [lia |]. split; [done |]. by rewrite Hjump.
      * intros Ht. destruct (IH i ltac:(lia) t Ht) as (Hlt & Htok & Hjump).
        split; [lia |]. by split.
  - rewrite (open_loops_past _ _ Hc). intros Ht.
    destruct (IH i ltac:(lia) t Ht) as (Hlt & Htok & Hjump).
    split; [lia |]. by split.
Qed.

(** Along a run the loop stack holds the loops open before the position
    the run stands at, as long as it did when the run started. *)
Lemma StateObject_round_open_loops code stdIn i stdOut st :
  StateObject.loopStartIndices st = open_loops code i →
  match StateObject.loop_round code stdIn i stdOut st with
  | Next i' _ st' => StateObject.loopStartIndices st' = open_loops code i'
  | _ => True
  end.
Proof.
  intros Hst. unfold StateObject.loop_round.
  destruct (code !! i) as [token |] eqn:Hi; [| done].
  token_cases token; simpl; try done;
    try (rewrite (open_loops_S _ _ _ Hi); simpl; by rewrite ?Hst).
  - move_cases StateObject_Move_state st 1; [done |].
    by rewrite (open_loops_S _ _ _ Hi).
  - move_cases StateObject_Move_state st (-1); [done |].
    by rewrite (open_loops_S _ _ _ Hi).
  - destruct (StateObject.IsMemoryLocationZero st); simpl.
    + rewrite (open_loops_S _ _ _ Hi). simpl. by rewrite Hst.
    + unfold StateObject.PeekLoopStartIndices. rewrite Hst.
      destruct (peek (open_loops code i)) as [t |] eqn:Ht; [| done].
      by destruct (open_loops_jump _ _ _ Ht) as (_ & _ & ->).
Qed.

Lemma InstanceFields_round_open_loops code i stdOut this :
  InstanceFields.loopStartIndices this = open_loops code i →
  match InstanceFields.loop_round code i stdOut this with
  | Next i' _ this' =>
      InstanceFields.loopStartIndices this' = open_loops code i'
  | _ => True
  end.
Proof.
  intros Hst. unfold InstanceFields.loop_round.
  destruct (code !! i) as [token |] eqn:Hi; [| done].
  token_cases token; simpl; try done;
    try (rewrite (open_loops_S _ _ _ Hi); simpl; by rewrite ?Hst).
  - move_cases InstanceFields_Move_state this 1; [done |].
    by rewrite (open_loops_S _ _ _ Hi).
  - move_cases InstanceFields_Move_state this (-1); [done |].
    by rewrite (open_loops_S _ _ _ Hi).
  - destruct (InstanceFields.IsMemoryLocationZero this); simpl.
    + rewrite (open_loops_S _ _ _ Hi). simpl. by rewrite Hst.
    + unfold InstanceFields.PeekLoopStartIndices. rewrite Hst.
      destruct (peek (open_loops code i)) as [t |] eqn:Ht; [| done].
      by destruct (open_loops_jump _ _ _ Ht) as (_ & _ & ->).
Qed.

Lemma BFjs_round_open_loops code stdin i std_out l :
  BFjs.loop_start_indices l = open_loops code i →
  match BFjs.loop_round code stdin i std_out l with
  | Next i' _ l' => BFjs.loop_start_indices l' = open_loops code i'
  | _ => True
  end.
Proof.
  intros Hst. unfold BFjs.loop_round.
  destruct (code !! i) as [tok |] eqn:Hi; [| done].
  token_cases tok; simpl;
    try (rewrite (open_loops_S _ _ _ Hi); simpl; by rewrite ?Hst).
  - destruct (strict_eq_zero _); simpl.
    + rewrite (open_loops_S _ _ _ Hi). simpl. by rewrite Hst.
    + rewrite Hst.
      destruct (peek (open_loops code i)) as [t |] eqn:Ht; [| done].
      by destruct (open_loops_jump _ _ _ Ht) as (_ & _ & ->).
  - rewrite (open_loops_S _ _ _ Hi).
    repeat match goal with H : tok_is _ _ = false |- _ => rewrite H end.
    done.
Qed.

(** ** Runs *)

(** More rounds do not change what a call gives. *)
Lemma StateObject_Interpret_more fuel fuel' this r :
  StateObject.Interpret fuel this = Some r → (fuel ≤ fuel')%nat →
  StateObject.Interpret fuel' this = Some r.
Proof.
  unfold StateObject.Interpret, StateObject.InterpretInternal.
  intros H Hle. destruct (StateObject.new_BFInterpreterState _); [| done].
  destruct (for_loop _ fuel _ _ _) as [[c st] |] eqn:Hl; [| done].
  by rewrite (for_loop_more _ _ _ _ _ _ _ Hl Hle).
Qed.

Lemma InstanceFields_Interpret_more fuel fuel' this r :
  InstanceFields.Interpret fuel this = Some r → (fuel ≤ fuel')%nat →
  InstanceFields.Interpret fuel' this = Some r.
Proof.
  unfold InstanceFields.Interpret, InstanceFields.InterpretInternal.
  intros H Hle.
  destruct (for_loop _ fuel _ _ _) as [[c st] |] eqn:Hl; [| done].
  by rewrite (for_loop_more _ _ _ _ _ _ _ Hl Hle).
Qed.

Lemma BFjs_BF_more fuel fuel' code opts r :
  BFjs.BF fuel code opts = Some r → (fuel ≤ fuel')%nat →
  BFjs.BF fuel' code opts = Some r.
Proof.
  unfold BFjs.BF. intros H Hle.
  destruct (BFjs.initial_memory _); [| done].
  destruct (for_loop _ fuel _ _ _) as [[c st] |] eqn:Hl; [| done].
  by rewrite (for_loop_more _ _ _ _ _ _ _ Hl Hle).
Qed.

(** A call has one result, whatever the number of rounds allowed. *)
Lemma StateObject_Interpret_agree fuel1 fuel2 this r1 r2 :
  StateObject.Interpret fuel1 this = Some r1 →
  StateObject.Interpret fuel2 this = Some r2 → r1 = r2.
Proof.
  intros H1 H2.
  apply StateObject_Interpret_more with (fuel' := (fuel1 `max` fuel2)%nat)
    in H1; [| lia].
  apply StateObject_Interpret_more with (fuel' := (fuel1 `max` fuel2)%nat)
    in H2; [| lia].
  congruence.
Qed.

Lemma InstanceFields_Interpret_agree fuel1 fuel2 this r1 r2 :
  InstanceFields.Interpret fuel1 this = Some r1 →
  InstanceFields.Interpret fuel2 this = Some r2 → r1 = r2.
Proof.
  intros H1 H2.
  apply InstanceFields_Interpret_more with (fuel' := (fuel1 `max` fuel2)%nat)
    in H1; [| lia].
  apply InstanceFields_Interpret_more with (fuel' := (fuel1 `max` fuel2)%nat)
    in H2; [| lia].
  congruence.
Qed.

Lemma BFjs_BF_agree fuel1 fuel2 code opts r1 r2 :
  BFjs.BF fuel1 code opts = Some r1 →
  BFjs.BF fuel2 code opts = Some r2 → r1 = r2.
Proof.
  intros H1 H2.
  apply BFjs_BF_more with (fuel' := (fuel1 `max` fuel2)%nat) in H1; [| lia].
  apply BFjs_BF_more with (fuel' := (fuel1 `max` fuel2)%nat) in H2; [| lia].
  congruence.
Qed.

(** ** The claims *)

(** C10.  In every run state, the instructions [">"], ["<"], ["."], ["["]
    and ["]"] leave every cell of the tape as it is, and ["+"], ["-"] and
    [","] change no cell but the one at the data pointer.  This holds for
    the rounds of both classes and of [BF]. *)
Theorem tape_frame code stdIn i stdOut token :
  code !! i = Some token →
  (∀ st,
     tape_effect token (StateObject.memoryPointer st)
       (StateObject.memory st)
       (StateObject.memory
          (state_of (StateObject.loop_round code stdIn i stdOut st))))
  ∧ (∀ this,
       tape_effect token (InstanceFields.memoryPointer this)
         (InstanceFields.memory this)
         (InstanceFields.memory
            (state_of (InstanceFields.loop_round code i stdOut this))))
  ∧ (∀ l,
       tape_effect token (BFjs.mem_index l) (BFjs.memory l)
         (BFjs.memory (state_of (BFjs.loop_round code stdIn i stdOut l)))).
Proof.
  intros Hi. split; [| split]; intros.
  - by apply StateObject_round_tape.
  - by apply InstanceFields_round_tape.
  - by apply BFjs_round_tape.
Qed.

Lemma tape_frame_witness :
  (∀ st,
     tape_effect (unit_of ",") (StateObject.memoryPointer st)
       (StateObject.memory st)
       (StateObject.memory
          (state_of
             (StateObject.loop_round (str ">,") (str "A") 1 [] st))))
  ∧ (∀ this,
       tape_effect (unit_of ",") (InstanceFields.memoryPointer this)
         (InstanceFields.memory this)
         (InstanceFields.memory
            (state_of (InstanceFields.loop_round (str ">,") 1 [] this))))
  ∧ (∀ l,
       tape_effect (unit_of ",") (BFjs.mem_index l) (BFjs.memory l)
         (BFjs.memory
            (state_of (BFjs.loop_round (str ">,") (str "A") 1 [] l)))).
Proof.
  apply (tape_frame (str ">,") (str "A") 1 [] (unit_of ",")). reflexivity.
Defined.

(** C9.  At every round of every run, every element of the loop stack is
    a valid index of the script at which the script has a ["["].  For the
    class with a state object and for [BF] a run starts from a fresh
    state; for the class that keeps the stack in a field, a run starts
    from whatever the constructor or the runs before left, and each call
    of [Interpret] hands the property on to the next. *)
Theorem loop_stack_holds_loop_starts code n :
  (∀ o st0,
     StateObject.new_BFInterpreterState o = Normal st0 →
     loop_starts_ok code
       (StateObject.loopStartIndices
          (state_of
             (after (StateObject.loop_round code (StdIn o)) n
                (Next 0 [] st0)))))
  ∧ (∀ o this0,
       InstanceFields.new_BFInterpreter code o = Normal this0 →
       loop_starts_ok code (InstanceFields.loopStartIndices this0))
  ∧ (∀ this,
       InstanceFields.code this = code →
       loop_starts_ok code (InstanceFields.loopStartIndices this) →
       loop_starts_ok code
         (InstanceFields.loopStartIndices
            (state_of
               (after (InstanceFields.loop_round code) n (Next 0 [] this))))
       ∧ ∀ fuel r this' evs,
           InstanceFields.Interpret fuel this = Some (r, this', evs) →
           InstanceFields.code this' = code
           ∧ loop_starts_ok code (InstanceFields.loopStartIndices this'))
  ∧ (∀ stdin m,
       loop_starts_ok code
         (BFjs.loop_start_indices
            (state_of
               (after (BFjs.loop_round code stdin) n
                  (Next 0 [] (BFjs.initial_locals m)))))).
Proof.
  split; [| split; [| split]].
  - intros o st0 Hnew.
    apply (after_invariant _
             (λ st, loop_starts_ok code (StateObject.loopStartIndices st))).
    + intros. by apply StateObject_round_loop_starts.
    + unfold StateObject.new_BFInterpreterState in Hnew.
      destruct (new_Array_fill0 _); inversion Hnew. constructor.
  - intros o this0 Hnew. unfold InstanceFields.new_BFInterpreter in Hnew.
    destruct (new_Array_fill0 _); inversion Hnew. constructor.
  - intros this Hcode Hok. split.
    + apply (after_invariant _
               (λ st,
                  loop_starts_ok code (InstanceFields.loopStartIndices st)));
        [| done].
      intros. by apply InstanceFields_round_loop_starts.
    + intros fuel r this' evs HI.
      assert (∃ k, this' = state_of (after (InstanceFields.loop_round code)
                                       k (Next 0 [] this))) as [k ->].
      { unfold InstanceFields.Interpret, InstanceFields.InterpretInternal
          in HI. rewrite Hcode in HI.
        destruct (for_loop _ fuel _ _ _) as [[c st] |] eqn:Hl; [| done].
        apply for_loop_state in Hl as [k ->]. exists k.
        destruct c; by inversion HI. }
      split.
      * apply (after_invariant _ (λ st, InstanceFields.code st = code));
          [| done].
        intros i stdOut st Hst.
        by rewrite (proj1 (InstanceFields_round_code code i stdOut st)).
      * apply (after_invariant _
                 (λ st,
                    loop_starts_ok code
                      (InstanceFields.loopStartIndices st))); [| done].
        intros. by apply InstanceFields_round_loop_starts.
  - intros stdin m.
    apply (after_invariant _
             (λ l, loop_starts_ok code (BFjs.loop_start_indices l))).
    + intros. by apply BFjs_round_loop_starts.
    + constructor.
Qed.

Lemma loop_stack_holds_loop_starts_witness :
  loop_starts_ok (str "+[-]")
    (StateObject.loopStartIndices
       (state_of
          (after (StateObject.loop_round (str "+[-]") []) 2
             (Next 0 []
                {| StateObject.memoryPointer := 0;
                   StateObject.memory := {| props := zeros 3; alength := 3 |};
                   StateObject.stdInPointer := 0;
                   StateObject.loopStartIndices := [] |}))))
  ∧ loop_starts_ok (str "+[-]")
      (InstanceFields.loopStartIndices
         (state_of
            (after (InstanceFields.loop_round (str "+[-]")) 2
               (Next 0 []
                  {| InstanceFields.code := str "+[-]";
                     InstanceFields.options := quiet_options 3 [];
                     InstanceFields.memoryPointer := 0;
                     InstanceFields.memory := {| props := ∅; alength := 0 |};
                     InstanceFields.stdInPointer := 0;
                     InstanceFields.loopStartIndices := [1%nat] |})))).
Proof.
  split.
  - apply (proj1 (loop_stack_holds_loop_starts (str "+[-]") 2)
             (quiet_options 3 [])).
    reflexivity.
  - apply (proj1 (proj2 (proj2 (loop_stack_holds_loop_starts (str "+[-]") 2)))
             {| InstanceFields.code := str "+[-]";
                InstanceFields.options := quiet_options 3 [];
                InstanceFields.memoryPointer := 0;
                InstanceFields.memory := {| props := ∅; alength := 0 |};
                InstanceFields.stdInPointer := 0;
                InstanceFields.loopStartIndices := [1%nat] |}).
    + reflexivity.
    + repeat constructor.
Defined.

(** [v === 0] holds exactly when [v] is the number 0. *)
Lemma strict_eq_zero_cell v :
  strict_eq_zero v = bool_decide (v = Some (Num 0)).
Proof.
  destruct v as [[z |] |]; unfold strict_eq_zero.
  - destruct (Z.eqb_spec z 0) as [-> | Hz].
    + by rewrite bool_decide_eq_true_2.
    + rewrite bool_decide_eq_false_2; [done |]. by intros [= ->].
  - by rewrite bool_decide_eq_false_2.
  - by rewrite bool_decide_eq_false_2.
Qed.

(** C5.  A ["]"] run with a loop start [t] on top of the loop stack: when
    the current cell, the cell of the tape at the data pointer, holds
    the number 0, the stack is popped and the run goes on past the ["]"];
    when it holds anything else, the stack is left as it is and the next
    instruction run is the one at [t + 1], right after the ["["] at [t].
    This holds for the rounds of both classes and of [BF].  In a run that
    starts from a fresh state, the stack at position [i] is
    [open_loops code i], so that [t] is the innermost ["["] still open
    there: the one the ["]"] matches. *)
Theorem close_bracket_round code i stdOut l t :
  code !! i = Some (unit_of "]") →
  (∀ stdIn st,
     StateObject.loopStartIndices st = push l t →
     StateObject.loop_round code stdIn i stdOut st
     = if bool_decide
            (aget (StateObject.memory st) (StateObject.memoryPointer st)
             = Some (Num 0))
       then Next (S i) stdOut (StateObject.with_loopStartIndices st l)
       else Next (S t) stdOut st)
  ∧ (∀ this,
       InstanceFields.loopStartIndices this = push l t →
       InstanceFields.loop_round code i stdOut this
       = if bool_decide
              (aget (InstanceFields.memory this)
                 (InstanceFields.memoryPointer this)
               = Some (Num 0))
         then Next (S i) stdOut (InstanceFields.with_loopStartIndices this l)
         else Next (S t) stdOut this)
  ∧ (∀ stdin loc,
       BFjs.loop_start_indices loc = push l t →
       BFjs.loop_round code stdin i stdOut loc
       = if bool_decide
              (aget (BFjs.memory loc) (BFjs.mem_index loc) = Some (Num 0))
         then Next (S i) stdOut (BFjs.with_loop_start_indices loc l)
         else Next (S t) stdOut loc)
  ∧ (open_loops code i = push l t →
     (t < i)%nat ∧ code !! t = Some (unit_of "["))
  ∧ (∀ o st0 n st,
       StateObject.new_BFInterpreterState o = Normal st0 →
       after (StateObject.loop_round code (StdIn o)) n (Next 0 [] st0)
       = Next i stdOut st →
       StateObject.loopStartIndices st = open_loops code i)
  ∧ (∀ o this0 n this,
       InstanceFields.new_BFInterpreter code o = Normal this0 →
       after (InstanceFields.loop_round code) n (Next 0 [] this0)
       = Next i stdOut this →
       InstanceFields.loopStartIndices this = open_loops code i)
  ∧ (∀ stdin m n loc,
       after (BFjs.loop_round code stdin) n
         (Next 0 [] (BFjs.initial_locals m))
       = Next i stdOut loc →
       BFjs.loop_start_indices loc = open_loops code i).
Proof.
  intros Hi. split; [| split; [| split; [| split; [| split; [| split]]]]].
  - intros stdIn st Hst.
    rewrite (StateObject_round_close _ _ _ _ _ _ _ Hi Hst).
    unfold StateObject.IsMemoryLocationZero.
    by rewrite strict_eq_zero_cell.
  - intros this Hst.
    rewrite (InstanceFields_round_close _ _ _ _ _ _ Hi Hst).
    unfold InstanceFields.IsMemoryLocationZero.
    by rewrite strict_eq_zero_cell.
  - intros stdin loc Hst.
    rewrite (BFjs_round_close _ _ _ _ _ _ _ Hi Hst).
    by rewrite strict_eq_zero_cell.
  - intros Ho.
    destruct (open_loops_jump code i t) as (Hlt & Ht & _); [| done].
    rewrite Ho. apply peek_push.
  - intros o st0 n st Hnew Hn.
    eapply (after_position_invariant _
              (λ j s, StateObject.loopStartIndices s = open_loops code j));
      [| | exact Hn].
    + intros. by apply StateObject_round_open_loops.
    + unfold StateObject.new_BFInterpreterState in Hnew.
      destruct (new_Array_fill0 _); by inversion Hnew.
  - intros o this0 n this Hnew Hn.
    eapply (after_position_invariant _
              (λ j s, InstanceFields.loopStartIndices s = open_loops code j));
      [| | exact Hn].
    + intros. by apply InstanceFields_round_open_loops.
    + unfold InstanceFields.new_BFInterpreter in Hnew.
      destruct (new_Array_fill0 _); by inversion Hnew.
  - intros stdin m n loc Hn.
    eapply (after_position_invariant _
              (λ j s, BFjs.loop_start_indices s = open_loops code j));
      [| | exact Hn].
    + intros. by apply BFjs_round_open_loops.
    + done.
Qed.

Lemma close_bracket_round_witness :
  StateObject.loop_round (str "[-]") [] 2 [] (state_with (Num 5) [0%nat])
  = Next 1 [] (state_with (Num 5) [0%nat])
  ∧ StateObject.loop_round (str "[-]") [] 2 [] (state_with (Num 0) [0%nat])
    = Next 3 [] (state_with (Num 0) [])
  ∧ StateObject.loop_round (str "[-]") [] 2 [] (state_with NaN [0%nat])
    = Next 1 [] (state_with NaN [0%nat])
  ∧ InstanceFields.loop_round (str "[-]") 2 []
      {| InstanceFields.code := str "[-]";
         InstanceFields.options := quiet_options 3 [];
         InstanceFields.memoryPointer := 0;
         InstanceFields.memory := {| props := zeros 3; alength := 3 |};
         InstanceFields.stdInPointer := 0;
         InstanceFields.loopStartIndices := [0%nat] |}
    = Next 3 []
        {| InstanceFields.code := str "[-]";
           InstanceFields.options := quiet_options 3 [];
           InstanceFields.memoryPointer := 0;
           InstanceFields.memory := {| props := zeros 3; alength := 3 |};
           InstanceFields.stdInPointer := 0;
           InstanceFields.loopStartIndices := [] |}
  ∧ BFjs.loop_start_indices
      (state_of
         (after (BFjs.loop_round (str "[-]") []) 2
            (Next 0 [] (BFjs.initial_locals (mkArray ∅ 0)))))
    = open_loops (str "[-]") 2.
Proof.
  split; [| split; [| split; [| split]]].
  - rewrite (proj1 (close_bracket_round (str "[-]") 2 [] [] 0%nat eq_refl) []
               (state_with (Num 5) [0%nat]) eq_refl).
    reflexivity.
  - rewrite (proj1 (close_bracket_round (str "[-]") 2 [] [] 0%nat eq_refl) []
               (state_with (Num 0) [0%nat]) eq_refl).
    reflexivity.
  - rewrite (proj1 (close_bracket_round (str "[-]") 2 [] [] 0%nat eq_refl) []
               (state_with NaN [0%nat]) eq_refl).
    reflexivity.
  - rewrite (proj1 (proj2 (close_bracket_round (str "[-]") 2 [] [] 0%nat
                             eq_refl))
               {| InstanceFields.code := str "[-]";
                  InstanceFields.options := quiet_options 3 [];
                  InstanceFields.memoryPointer := 0;
                  InstanceFields.memory := {| props := zeros 3; alength := 3 |};
                  InstanceFields.stdInPointer := 0;
                  InstanceFields.loopStartIndices := [0%nat] |} eq_refl).
    reflexivity.
  - apply (proj2 (proj2 (proj2 (proj2 (proj2 (proj2
             (close_bracket_round (str "[-]") 2 [] [] 0%nat eq_refl)))))) []
             (mkArray ∅ 0) 2%nat).
    reflexivity.
Defined.

(** C3, as the code has it.  In both classes, when a run reaches a
    position of the script that holds a character outside the instruction
    set, [Interpret] throws the error that carries this character and this
    position; the caller gets the error and nothing else: the output
    produced so far is dropped, and nothing is written or called back.
    The function [BF] has no such error: its round at such a character
    does nothing and goes on to the next position. *)
Theorem invalid_character code i token :
  code !! i = Some token →
  instruction token = false →
  (∀ o st0 n stdOut st fuel,
     StateObject.new_BFInterpreterState o = Normal st0 →
     after (StateObject.loop_round code (StdIn o)) n (Next 0 [] st0)
     = Next i stdOut st →
     (n < fuel)%nat →
     StateObject.Interpret fuel
       (StateObject.new_BFInterpreter code (Some o))
     = Some (Throw (InvalidCharacter token i),
             (StateObject.new_BFInterpreter code (Some o)), []))
  ∧ (∀ this n stdOut this' fuel,
       InstanceFields.code this = code →
       after (InstanceFields.loop_round code) n (Next 0 [] this)
       = Next i stdOut this' →
       (n < fuel)%nat →
       InstanceFields.Interpret fuel this
       = Some (Throw (InvalidCharacter token i), this', []))
  ∧ (∀ stdin std_out l,
       BFjs.loop_round code stdin i std_out l = Next (S i) std_out l).
Proof.
  intros Hi Hno. split; [| split].
  - intros o st0 n stdOut st fuel Hnew Hn Hlt.
    unfold StateObject.Interpret, StateObject.InterpretInternal. simpl.
    rewrite Hnew.
    replace fuel with (n + S (fuel - n - 1))%nat by lia.
    rewrite (for_loop_after _ _ _ _ _ _ _ _ _ Hn). simpl.
    by rewrite (StateObject_round_invalid _ _ _ _ _ _ Hi Hno).
  - intros this n stdOut this' fuel Hcode Hn Hlt.
    unfold InstanceFields.Interpret, InstanceFields.InterpretInternal.
    rewrite Hcode.
    replace fuel with (n + S (fuel - n - 1))%nat by lia.
    rewrite (for_loop_after _ _ _ _ _ _ _ _ _ Hn). simpl.
    by rewrite (InstanceFields_round_invalid _ _ _ _ _ Hi Hno).
  - intros. by apply BFjs_round_invalid with token.
Qed.

Lemma invalid_character_witness :
  StateObject.Interpret 3
    (StateObject.new_BFInterpreter (str "+.a") (Some (quiet_options 3 [])))
  = Some (Throw (InvalidCharacter (unit_of "a") 2),
          (StateObject.new_BFInterpreter (str "+.a")
             (Some (quiet_options 3 []))), [])
  ∧ BFjs.loop_round (str "+.a") [] 2 [1] (BFjs.initial_locals (mkArray ∅ 0))
    = Next 3 [1] (BFjs.initial_locals (mkArray ∅ 0)).
Proof.
  split.
  - eapply (proj1 (invalid_character (str "+.a") 2 (unit_of "a")
                     eq_refl eq_refl)
              (quiet_options 3 []) _ 2%nat [1]);
      [reflexivity | reflexivity | lia].
  - apply (proj2 (proj2 (invalid_character (str "+.a") 2 (unit_of "a")
                           eq_refl eq_refl))).
Defined.

(** C3, as stated, fails on [BF]: the script [".a"] has the character
    ["a"], outside the instruction set, at position 1; the run reaches it,
    and [BF] returns the output produced so far instead of raising. *)
Lemma BF_ignores_other_characters :
  str ".a" !! 1%nat = Some (unit_of "a")
  ∧ instruction (unit_of "a") = false
  ∧ BFjs.BF 3 (str ".a") (Some (quiet_opts 3 [])) = Some (Normal [0], [])
  ∧ ∀ fuel e evs,
      BFjs.BF fuel (str ".a") (Some (quiet_opts 3 [])) ≠ Some (Throw e, evs).
Proof.
  assert (BFjs.BF 3 (str ".a") (Some (quiet_opts 3 []))
          = Some (Normal [0], [])) as H3 by (vm_compute; reflexivity).
  repeat split; try done.
  intros fuel e evs H.
  pose proof (BFjs_BF_agree _ _ _ _ _ _ H3 H). discriminate.
Qed.

(** What [MoveMemoryPointer] checks: the moved pointer is refused below 0
    and above the number of words; from 0 to the number of words, that
    number included, it is accepted. *)
Lemma InstanceFields_Move_check this forward :
  let p := InstanceFields.memoryPointer this + forward in
  let words := MemoryWords (InstanceFields.options this) in
  (InstanceFields.MoveMemoryPointer this forward).2
  = if bool_decide (p < 0) then
      Some (PointerBelowZero p (InstanceFields.stdInPointer this) words)
    else if bool_decide (words < p) then
      Some (PointerAboveLimit (words - 1) p
              (InstanceFields.stdInPointer this) words)
    else None.
Proof.
  unfold InstanceFields.MoveMemoryPointer. simpl.
  repeat case_bool_decide; repeat case_match; try done; lia.
Qed.

Lemma StateObject_Move_check this forward :
  let p := StateObject.memoryPointer this + forward in
  let words := alength (StateObject.memory this) in
  (StateObject.MoveMemoryPointer this forward).2
  = if bool_decide (p < 0) then
      Some (PointerBelowZero p (StateObject.stdInPointer this) words)
    else if bool_decide (words < p) then
      Some (PointerAboveLimit (words - 1) p
              (StateObject.stdInPointer this) words)
    else None.
Proof.
  unfold StateObject.MoveMemoryPointer. simpl.
  repeat case_bool_decide; repeat case_match; try done; lia.
Qed.

(** What [MoveMemoryPointer] raises is a PointerRangeError, and it raises
    one whenever the moved pointer is below 0 or above the number of
    words. *)
Lemma InstanceFields_Move_refused this forward :
  let p := InstanceFields.memoryPointer this + forward in
  p < 0 ∨ MemoryWords (InstanceFields.options this) < p →
  ∃ e, (InstanceFields.MoveMemoryPointer this forward).2 = Some e
       ∧ PointerRangeError e = true.
Proof.
  intros p Hp. rewrite InstanceFields_Move_check.
  repeat case_bool_decide; eauto. lia.
Qed.

Lemma StateObject_Move_refused this forward :
  let p := StateObject.memoryPointer this + forward in
  p < 0 ∨ alength (StateObject.memory this) < p →
  ∃ e, (StateObject.MoveMemoryPointer this forward).2 = Some e
       ∧ PointerRangeError e = true.
Proof.
  intros p Hp. rewrite StateObject_Move_check.
  repeat case_bool_decide; eauto. lia.
Qed.

(** The state a run of the class with a state object starts from: the
    pointers at 0, no loop open, and a tape of [MemoryWords] zeros. *)
Lemma StateObject_fresh_state o st :
  StateObject.new_BFInterpreterState o = Normal st →
  StateObject.memoryPointer st = 0
  ∧ StateObject.stdInPointer st = 0%nat
  ∧ StateObject.loopStartIndices st = []
  ∧ alength (StateObject.memory st) = MemoryWords o
  ∧ ∀ k, aget (StateObject.memory st) k
         = if bool_decide (0 ≤ k < MemoryWords o) then Some (Num 0)
           else None.
Proof.
  unfold StateObject.new_BFInterpreterState, new_Array_fill0.
  case_bool_decide; [| done]. intros [= <-]. repeat split.
  intros k. apply lookup_zeros.
Qed.

(** C1, on its example.  With three words of memory, empty input and the
    script ["+>+>+>"], no call raises: each of the two classes returns the
    empty output, and so does [BF], which has no pointer check.  In the
    class that keeps its state, the pointer is left at 3, one past the
    last cell; a fourth [">"] is the first to be refused, with an error
    that names 2 as the greatest pointer allowed.  In the class with a
    state object the limit is the length of the tape, which the write at
    index 3 has grown: there ["+>+>+>+>"] returns as well. *)
Theorem third_move_right_is_accepted :
  StateObject.Interpret 7
    (StateObject.new_BFInterpreter (str "+>+>+>") (Some (quiet_options 3 [])))
  = Some (Normal [],
          (StateObject.new_BFInterpreter (str "+>+>+>")
             (Some (quiet_options 3 []))), [])
  ∧ StateObject.Interpret 9
      (StateObject.new_BFInterpreter (str "+>+>+>+>")
         (Some (quiet_options 3 [])))
    = Some (Normal [],
            (StateObject.new_BFInterpreter (str "+>+>+>+>")
               (Some (quiet_options 3 []))), [])
  ∧ (∃ this0 this',
       InstanceFields.new_BFInterpreter (str "+>+>+>")
         (Some (quiet_options 3 [])) = Normal this0
       ∧ InstanceFields.Interpret 7 this0 = Some (Normal [], this', [])
       ∧ InstanceFields.memoryPointer this' = 3
       ∧ InstanceFields.MoveMemoryPointer this' 1
         = ({| InstanceFields.code := InstanceFields.code this';
               InstanceFields.options := InstanceFields.options this';
               InstanceFields.memoryPointer := 4;
               InstanceFields.memory := InstanceFields.memory this';
               InstanceFields.stdInPointer := 0;
               InstanceFields.loopStartIndices := [] |},
            Some (PointerAboveLimit 2 4 0 3)))
  ∧ BFjs.BF 7 (str "+>+>+>") (Some (quiet_opts 3 []))
    = Some (Normal [], []).
Proof.
  split; [by vm_compute |]. split; [by vm_compute |].
  split; [| by vm_compute].
  eexists _, _. split; [reflexivity |].
  split; [by vm_compute |]. split; by vm_compute.
Qed.

(** C2, on the code.  When the input cursor is past the end of the input,
    [ReadCharFromStdIn] of either class stores [NaN] in the current cell,
    not 0: its test [charCode === NaN] never holds.  [BF] stores 0 there.
    In all three the cursor advances by one.  The difference shows on the
    script [",+."] with empty input: the classes return the character of
    code 0 and [BF] the character of code 1. *)
Theorem exhausted_input_is_stored_as_NaN :
  (∀ st stdIn,
     (List.length stdIn ≤ StateObject.stdInPointer st)%nat →
     aget (StateObject.memory (StateObject.ReadCharFromStdIn st stdIn))
       (StateObject.memoryPointer st) = Some NaN
     ∧ StateObject.stdInPointer (StateObject.ReadCharFromStdIn st stdIn)
       = S (StateObject.stdInPointer st))
  ∧ (∀ this,
       (List.length (StdIn (InstanceFields.options this))
        ≤ InstanceFields.stdInPointer this)%nat →
       aget (InstanceFields.memory (InstanceFields.ReadCharFromStdIn this))
         (InstanceFields.memoryPointer this) = Some NaN
       ∧ InstanceFields.stdInPointer (InstanceFields.ReadCharFromStdIn this)
         = S (InstanceFields.stdInPointer this))
  ∧ (∀ l stdin,
       (List.length stdin ≤ BFjs.stdin_index l)%nat →
       aget (BFjs.memory (BFjs.read l stdin)) (BFjs.mem_index l)
       = Some (Num 0)
       ∧ BFjs.stdin_index (BFjs.read l stdin) = S (BFjs.stdin_index l))
  ∧ returned
      (StateObject.Interpret 4
         (StateObject.new_BFInterpreter (str ",+.")
            (Some (quiet_options 3 []))))
    = Some (Normal [0])
  ∧ BFjs.BF 4 (str ",+.") (Some (quiet_opts 3 [])) = Some (Normal [1], []).
Proof.
  split; [| split; [| split; [| split]]].
  - intros st stdIn Hlen. split; [| done].
    unfold StateObject.ReadCharFromStdIn. cbn [StateObject.memory].
    rewrite aget_aset_eq. unfold charCodeAt.
    by rewrite (lookup_ge_None_2 stdIn _ Hlen).
  - intros this Hlen. split; [| done].
    unfold InstanceFields.ReadCharFromStdIn. cbn [InstanceFields.memory].
    rewrite aget_aset_eq. unfold charCodeAt.
    by rewrite (lookup_ge_None_2 _ _ Hlen).
  - intros l stdin Hlen. split; [| done].
    unfold BFjs.read. cbn [BFjs.memory].
    rewrite aget_aset_eq. unfold charCodeAt.
    by rewrite (lookup_ge_None_2 stdin _ Hlen).
  - by vm_compute.
  - by vm_compute.
Qed.

Lemma exhausted_input_is_stored_as_NaN_witness :
  aget (StateObject.memory
          (StateObject.ReadCharFromStdIn (state_with (Num 7) []) (str "A")))
    0 = Some (Num 65)
  ∧ aget (StateObject.memory
            (StateObject.ReadCharFromStdIn
               (StateObject.ReadCharFromStdIn (state_with (Num 7) [])
                  (str "A"))
               (str "A")))
      0 = Some NaN.
Proof.
  split; [reflexivity |].
  apply (proj1 exhausted_input_is_stored_as_NaN
           (StateObject.ReadCharFromStdIn (state_with (Num 7) []) (str "A"))
           (str "A")).
  simpl. lia.
Defined.

(** The class with a state object leaves the interpreter object as it
    is, so a second call gives what the first gave. *)
Lemma StateObject_Interpret_same_object fuel this r this' evs :
  StateObject.Interpret fuel this = Some (r, this', evs) → this' = this.
Proof.
  unfold StateObject.Interpret. intros H.
  repeat case_match; by inversion H.
Qed.

Lemma StateObject_Interpret_twice fuel1 fuel2 this r1 this1 evs1 r2 this2
  evs2 :
  StateObject.Interpret fuel1 this = Some (r1, this1, evs1) →
  StateObject.Interpret fuel2 this1 = Some (r2, this2, evs2) →
  r2 = r1 ∧ evs2 = evs1 ∧ this2 = this.
Proof.
  intros H1 H2.
  pose proof (StateObject_Interpret_same_object _ _ _ _ _ H1). subst this1.
  pose proof (StateObject_Interpret_agree _ _ _ _ _ H1 H2) as Heq.
  by inversion Heq.
Qed.

(** C4, on the code.  The class that keeps the tape, the pointers and
    the loop stack in its own fields creates them in the constructor and
    never again: on the script ["+."] the first call of [Interpret]
    returns the character of code 1 and leaves 1 in cell 0, and the second
    call on the same object returns the character of code 2. *)
Theorem second_Interpret_sees_first :
  ∃ this0 this1 this2,
    InstanceFields.new_BFInterpreter (str "+.") (Some (quiet_options 3 []))
    = Normal this0
    ∧ InstanceFields.Interpret 3 this0 = Some (Normal [1], this1, [])
    ∧ aget (InstanceFields.memory this1) 0 = Some (Num 1)
    ∧ InstanceFields.Interpret 3 this1 = Some (Normal [2], this2, []).
Proof.
  eexists _, _, _. split; [reflexivity |].
  split; [by vm_compute |]. split; by vm_compute.
Qed.

(** The output settings play no part in a round. *)
Lemma InstanceFields_round_sinks code i stdOut this quiet el cb :
  InstanceFields.loop_round code i stdOut
    (InstanceFields_with_sinks this quiet el cb)
  = round_map (λ b, InstanceFields_with_sinks b quiet el cb)
      (InstanceFields.loop_round code i stdOut this).
Proof.
  unfold InstanceFields.loop_round.
  destruct (code !! i) as [token |]; [| done].
  token_cases token; simpl; try done.
  - unfold InstanceFields.MoveMemoryPointer; simpl.
    destruct (_ <? 0); [done |]. by destruct (_ >? _).
  - unfold InstanceFields.MoveMemoryPointer; simpl.
    destruct (_ <? 0); [done |]. by destruct (_ >? _).
  - unfold InstanceFields.IsMemoryLocationZero; simpl.
    destruct (strict_eq_zero _); [done |].
    unfold InstanceFields.PeekLoopStartIndices; simpl.
    by destruct (peek _).
Qed.

Lemma InstanceFields_returned_sinks fuel this quiet el cb :
  returned
    (InstanceFields.Interpret fuel
       (InstanceFields_with_sinks this quiet el cb))
  = returned (InstanceFields.Interpret fuel this).
Proof.
  unfold InstanceFields.Interpret, InstanceFields.InterpretInternal.
  cbn [InstanceFields_with_sinks InstanceFields.code].
  change {| InstanceFields.code := InstanceFields.code this;
            InstanceFields.options :=
              with_sinks (InstanceFields.options this) quiet el cb;
            InstanceFields.memoryPointer :=
              InstanceFields.memoryPointer this;
            InstanceFields.memory := InstanceFields.memory this;
            InstanceFields.stdInPointer := InstanceFields.stdInPointer this;
            InstanceFields.loopStartIndices :=
              InstanceFields.loopStartIndices this |}
    with (InstanceFields_with_sinks this quiet el cb).
  rewrite (for_loop_map (λ b, InstanceFields_with_sinks b quiet el cb)
             (InstanceFields.loop_round (InstanceFields.code this)));
    [| intros; apply InstanceFields_round_sinks].
  destruct (for_loop _ fuel 0%nat [] this) as [[[out | e] st] |]; done.
Qed.

Lemma StateObject_returned_sinks fuel code o quiet el cb :
  returned
    (StateObject.Interpret fuel
       (StateObject.new_BFInterpreter code (Some (with_sinks o quiet el cb))))
  = returned
      (StateObject.Interpret fuel
         (StateObject.new_BFInterpreter code (Some o))).
Proof.
  unfold StateObject.Interpret, StateObject.InterpretInternal,
    StateObject.new_BFInterpreterState. simpl.
  destruct (new_Array_fill0 _); [| done].
  destruct (for_loop _ fuel _ _ _) as [[[out | e] st] |]; done.
Qed.

(** What a call returns is what the loop of [InterpretInternal] ends
    with, whatever the three output settings. *)
Lemma StateObject_returned_loop fuel code o quiet el cb st0 :
  StateObject.new_BFInterpreterState o = Normal st0 →
  returned
    (StateObject.Interpret fuel
       (StateObject.new_BFInterpreter code (Some (with_sinks o quiet el cb))))
  = fst <$> for_loop (StateObject.loop_round code (StdIn o)) fuel 0 [] st0.
Proof.
  unfold StateObject.Interpret, StateObject.InterpretInternal,
    StateObject.new_BFInterpreterState. simpl.
  destruct (new_Array_fill0 _); [| done]. intros [= <-].
  destruct (for_loop _ fuel _ _ _) as [[[out | e] st] |]; done.
Qed.

Lemma InstanceFields_returned_loop fuel this quiet el cb :
  returned
    (InstanceFields.Interpret fuel
       (InstanceFields_with_sinks this quiet el cb))
  = fst <$> for_loop (InstanceFields.loop_round (InstanceFields.code this))
              fuel 0 [] this.
Proof.
  rewrite InstanceFields_returned_sinks.
  unfold InstanceFields.Interpret, InstanceFields.InterpretInternal.
  destruct (for_loop _ fuel _ _ _) as [[[out | e] st] |]; done.
Qed.

(** A loop that has come, within the rounds allowed, to a position past
    the end of the script ends there with the output it has built. *)
Lemma for_loop_leaves {S : Type} (body : nat → jsstring → S → round S)
  fuel n i0 stdOut0 st0 i stdOut st :
  after body n (Next i0 stdOut0 st0) = Next i stdOut st →
  body i stdOut st = Leave stdOut st →
  (n < fuel)%nat →
  for_loop body fuel i0 stdOut0 st0 = Some (Normal stdOut, st).
Proof.
  intros Hn Hb Hlt.
  replace fuel with (n + Datatypes.S (fuel - n - 1))%nat by lia.
  rewrite (for_loop_after _ _ _ _ _ _ _ _ _ Hn).
  cbn [for_loop]. by rewrite Hb.
Qed.

(** C7.  What [Interpret] returns does not depend on [Quiet], on
    [CompleteCallback] or on [OutputElement]: with any other setting of
    the three, the same options otherwise and the same script, it returns
    the same string (or raises the same error).  With [Quiet] true and no
    callback nothing is written to the console or under an element and
    nothing is called, and the string returned is still the output of the
    run.  The string returned is the one the loop of [InterpretInternal]
    ends with, whatever the three settings: when the run has come, after
    [n] rounds, to a position past the end of the script with the output
    [stdOut] built by its ["."] instructions, the call returns [stdOut],
    and when the loop raises an error the call raises it.  This holds for
    both classes. *)
Theorem Interpret_returns_output_whatever_the_sinks fuel code o quiet el cb :
  returned
    (StateObject.Interpret fuel
       (StateObject.new_BFInterpreter code (Some (with_sinks o quiet el cb))))
  = returned
      (StateObject.Interpret fuel
         (StateObject.new_BFInterpreter code (Some o)))
  ∧ (∀ this,
       returned
         (InstanceFields.Interpret fuel
            (InstanceFields_with_sinks this quiet el cb))
       = returned (InstanceFields.Interpret fuel this))
  ∧ (∀ r this' evs,
       StateObject.Interpret fuel
         (StateObject.new_BFInterpreter code (Some (with_sinks o true el None)))
       = Some (r, this', evs) →
       evs = []
       ∧ returned
           (StateObject.Interpret fuel
              (StateObject.new_BFInterpreter code (Some o)))
         = Some r)
  ∧ (∀ this r this' evs,
       InstanceFields.Interpret fuel
         (InstanceFields_with_sinks this true el None)
       = Some (r, this', evs) →
       evs = [] ∧ returned (InstanceFields.Interpret fuel this) = Some r)
  ∧ (∀ st0,
       StateObject.new_BFInterpreterState o = Normal st0 →
       returned
         (StateObject.Interpret fuel
            (StateObject.new_BFInterpreter code
               (Some (with_sinks o quiet el cb))))
       = fst <$> for_loop (StateObject.loop_round code (StdIn o)) fuel 0 []
                   st0)
  ∧ (∀ this,
       returned
         (InstanceFields.Interpret fuel
            (InstanceFields_with_sinks this quiet el cb))
       = fst <$> for_loop
                   (InstanceFields.loop_round (InstanceFields.code this))
                   fuel 0 [] this)
  ∧ (∀ st0 n i stdOut st,
       StateObject.new_BFInterpreterState o = Normal st0 →
       after (StateObject.loop_round code (StdIn o)) n (Next 0 [] st0)
       = Next i stdOut st →
       (List.length code ≤ i)%nat →
       (n < fuel)%nat →
       StateObject.Interpret fuel
         (StateObject.new_BFInterpreter code (Some (with_sinks o true el None)))
       = Some (Normal stdOut,
               StateObject.new_BFInterpreter code
                 (Some (with_sinks o true el None)),
               [])
       ∧ returned
           (StateObject.Interpret fuel
              (StateObject.new_BFInterpreter code
                 (Some (with_sinks o quiet el cb))))
         = Some (Normal stdOut))
  ∧ (∀ this n i stdOut this',
       after (InstanceFields.loop_round (InstanceFields.code this)) n
         (Next 0 [] this)
       = Next i stdOut this' →
       (List.length (InstanceFields.code this) ≤ i)%nat →
       (n < fuel)%nat →
       InstanceFields.Interpret fuel
         (InstanceFields_with_sinks this true el None)
       = Some (Normal stdOut, InstanceFields_with_sinks this' true el None,
               [])
       ∧ returned
           (InstanceFields.Interpret fuel
              (InstanceFields_with_sinks this quiet el cb))
         = Some (Normal stdOut)).
Proof.
  split; [apply StateObject_returned_sinks |].
  split; [intros; apply InstanceFields_returned_sinks |].
  split; [| split; [| split; [| split; [| split]]]].
  - intros r this' evs H. split.
    + unfold StateObject.Interpret in H.
      repeat case_match; by inversion H.
    + rewrite <- (StateObject_returned_sinks fuel code o true el None).
      by rewrite H.
  - intros this r this' evs H. split.
    + unfold InstanceFields.Interpret in H.
      destruct (InstanceFields.InterpretInternal _ _ _)
        as [[[out | e] st] |] eqn:Hl; [| by inversion H | done].
      inversion H; subst.
      assert (InstanceFields.options this'
              = with_sinks (InstanceFields.options this) true el None)
        as ->; [| done].
      unfold InstanceFields.InterpretInternal in Hl.
      apply for_loop_state in Hl as [n ->].
      apply (after_invariant _
               (λ b, InstanceFields.options b
                     = with_sinks (InstanceFields.options this) true el
                         None)); [| done].
      intros i stdOut st Hst.
      by rewrite (proj2 (InstanceFields_round_code _ i stdOut st)).
    + rewrite <- (InstanceFields_returned_sinks fuel this true el None).
      by rewrite H.
  - intros st0 Hnew. by apply StateObject_returned_loop.
  - intros this. apply InstanceFields_returned_loop.
  - intros st0 n i stdOut st Hnew Hn Hi Hlt.
    assert (for_loop (StateObject.loop_round code (StdIn o)) fuel 0 [] st0
            = Some (Normal stdOut, st)) as Hrun.
    { apply (for_loop_leaves _ _ _ _ _ _ _ _ _ Hn); [| done].
      unfold StateObject.loop_round.
      by rewrite (lookup_ge_None_2 code i Hi). }
    split.
    + unfold StateObject.Interpret, StateObject.InterpretInternal.
      unfold StateObject.new_BFInterpreterState in *. simpl in *.
      destruct (new_Array_fill0 _); [| done]. inversion Hnew; subst.
      by rewrite Hrun.
    + by rewrite (StateObject_returned_loop _ _ _ _ _ _ _ Hnew), Hrun.
  - intros this n i stdOut this' Hn Hi Hlt.
    assert (for_loop (InstanceFields.loop_round (InstanceFields.code this))
              fuel 0 [] this
            = Some (Normal stdOut, this')) as Hrun.
    { apply (for_loop_leaves _ _ _ _ _ _ _ _ _ Hn); [| done].
      unfold InstanceFields.loop_round.
      by rewrite (lookup_ge_None_2 _ i Hi). }
    split.
    + unfold InstanceFields.Interpret, InstanceFields.InterpretInternal.
      cbn [InstanceFields_with_sinks InstanceFields.code].
      change {| InstanceFields.code := InstanceFields.code this;
                InstanceFields.options :=
                  with_sinks (InstanceFields.options this) true el None;
                InstanceFields.memoryPointer :=
                  InstanceFields.memoryPointer this;
                InstanceFields.memory := InstanceFields.memory this;
                InstanceFields.stdInPointer :=
                  InstanceFields.stdInPointer this;
                InstanceFields.loopStartIndices :=
                  InstanceFields.loopStartIndices this |}
        with (InstanceFields_with_sinks this true el None).
      rewrite (for_loop_map (λ b, InstanceFields_with_sinks b true el None)
                 (InstanceFields.loop_round (InstanceFields.code this)));
        [| intros; apply InstanceFields_round_sinks].
      by rewrite Hrun.
    + by rewrite InstanceFields_returned_loop, Hrun.
Qed.

Lemma Interpret_returns_output_whatever_the_sinks_witness :
  StateObject.Interpret 3
    (StateObject.new_BFInterpreter (str "+.") (Some (loud_options 3 [])))
  = Some (Normal [1],
          (StateObject.new_BFInterpreter (str "+.") (Some (loud_options 3 []))),
          [AppendDiv 1%nat "bfjs" [1]; CallbackCall 2%nat [1]])
  ∧ StateObject.Interpret 3
      (StateObject.new_BFInterpreter (str "+.")
         (Some (with_sinks (loud_options 3 []) true None None)))
    = Some (Normal [1],
            (StateObject.new_BFInterpreter (str "+.")
               (Some (with_sinks (loud_options 3 []) true None None))),
            [])
  ∧ returned
      (StateObject.Interpret 3
         (StateObject.new_BFInterpreter (str "+.")
            (Some (with_sinks (loud_options 3 [])
                     true (Some 7%nat) (Some 8%nat)))))
    = Some (Normal [1])
  ∧ returned
      (StateObject.Interpret 3
         (StateObject.new_BFInterpreter (str "+.") (Some (loud_options 3 []))))
    = Some (Normal [1])
  ∧ returned
      (StateObject.Interpret 3
         (StateObject.new_BFInterpreter (str "+.")
            (Some (with_sinks (loud_options 3 []) false None (Some 8%nat)))))
    = Some (Normal [1])
  ∧ InstanceFields.Interpret 3
      (InstanceFields_with_sinks
         {| InstanceFields.code := str "+.";
            InstanceFields.options := loud_options 3 [];
            InstanceFields.memoryPointer := 0;
            InstanceFields.memory := {| props := zeros 3; alength := 3 |};
            InstanceFields.stdInPointer := 0;
            InstanceFields.loopStartIndices := [] |} true None None)
    = Some (Normal [1],
            {| InstanceFields.code := str "+.";
               InstanceFields.options :=
                 with_sinks (loud_options 3 []) true None None;
               InstanceFields.memoryPointer := 0;
               InstanceFields.memory :=
                 aset {| props := zeros 3; alength := 3 |} 0 (Num 1);
               InstanceFields.stdInPointer := 0;
               InstanceFields.loopStartIndices := [] |},
            [])
  ∧ returned
      (InstanceFields.Interpret 3
         (InstanceFields_with_sinks
            {| InstanceFields.code := str "+.";
               InstanceFields.options := loud_options 3 [];
               InstanceFields.memoryPointer := 0;
               InstanceFields.memory := {| props := zeros 3; alength := 3 |};
               InstanceFields.stdInPointer := 0;
               InstanceFields.loopStartIndices := [] |}
            false (Some 7%nat) (Some 8%nat)))
    = Some (Normal [1]).
Proof.
  split; [reflexivity |]. split; [reflexivity |].
  split; [| split; [| split; [| split]]].
  - rewrite (proj1 (Interpret_returns_output_whatever_the_sinks 3 (str "+.")
                      (loud_options 3 []) true (Some 7%nat) (Some 8%nat))).
    reflexivity.
  - apply (proj1 (proj2 (proj2 (Interpret_returns_output_whatever_the_sinks
                                  3 (str "+.") (loud_options 3 []) true
                                  None None)))
             (Normal [1])
             (StateObject.new_BFInterpreter (str "+.")
                (Some (with_sinks (loud_options 3 []) true None None)))
             []).
    reflexivity.
  - exact (proj2
             (proj1 (proj2 (proj2 (proj2 (proj2 (proj2 (proj2
                (Interpret_returns_output_whatever_the_sinks 3 (str "+.")
                   (loud_options 3 []) false None (Some 8%nat))))))))
                {| StateObject.memoryPointer := 0;
                   StateObject.memory := {| props := zeros 3; alength := 3 |};
                   StateObject.stdInPointer := 0;
                   StateObject.loopStartIndices := [] |}
                2%nat 2%nat [1]
                {| StateObject.memoryPointer := 0;
                   StateObject.memory :=
                     aset {| props := zeros 3; alength := 3 |} 0 (Num 1);
                   StateObject.stdInPointer := 0;
                   StateObject.loopStartIndices := [] |}
                eq_refl eq_refl ltac:(simpl; lia) ltac:(lia))).
  - rewrite (proj1
               (proj2 (proj2 (proj2 (proj2 (proj2 (proj2 (proj2
                  (Interpret_returns_output_whatever_the_sinks 3 (str "+.")
                     (loud_options 3 []) false None None)))))))
                  {| InstanceFields.code := str "+.";
                     InstanceFields.options := loud_options 3 [];
                     InstanceFields.memoryPointer := 0;
                     InstanceFields.memory :=
                       {| props := zeros 3; alength := 3 |};
                     InstanceFields.stdInPointer := 0;
                     InstanceFields.loopStartIndices := [] |}
                  2%nat 2%nat [1]
                  {| InstanceFields.code := str "+.";
                     InstanceFields.options := loud_options 3 [];
                     InstanceFields.memoryPointer := 0;
                     InstanceFields.memory :=
                       aset {| props := zeros 3; alength := 3 |} 0 (Num 1);
                     InstanceFields.stdInPointer := 0;
                     InstanceFields.loopStartIndices := [] |}
                  eq_refl ltac:(simpl; lia) ltac:(lia))).
    reflexivity.
  - rewrite (proj1 (proj2 (proj2 (proj2 (proj2 (proj2
               (Interpret_returns_output_whatever_the_sinks 3 (str "+.")
                  (loud_options 3 []) false (Some 7%nat) (Some 8%nat)))))))).
    reflexivity.
Defined.

(** In the class with a state object, what a call returns is determined
    by the script, the input and the number of words. *)
Lemma StateObject_result_determined fuel1 fuel2 code o1 o2 r1 r2 :
  MemoryWords o1 = MemoryWords o2 →
  StdIn o1 = StdIn o2 →
  returned
    (StateObject.Interpret fuel1
       (StateObject.new_BFInterpreter code (Some o1))) = Some r1 →
  returned
    (StateObject.Interpret fuel2
       (StateObject.new_BFInterpreter code (Some o2))) = Some r2 →
  r1 = r2.
Proof.
  intros Hw Hs H1 H2.
  rewrite <- (StateObject_returned_sinks fuel1 code o1 true None None) in H1.
  rewrite <- (StateObject_returned_sinks fuel2 code o2 true None None) in H2.
  unfold with_sinks in H1, H2. rewrite Hw, Hs in H1.
  destruct (StateObject.Interpret fuel1 _) as [[[c1 b1] e1] |] eqn:E1;
    [| done].
  destruct (StateObject.Interpret fuel2 _) as [[[c2 b2] e2] |] eqn:E2;
    [| done].
  pose proof (StateObject_Interpret_agree _ _ _ _ _ E1 E2) as Heq.
  simpl in H1, H2. congruence.
Qed.

(** The same for [BF]. *)
Lemma BFjs_result_determined fuel1 fuel2 code o1 o2 r1 r2 :
  BFjs.mem_size_of o1 = BFjs.mem_size_of o2 →
  BFjs.stdin_of o1 = BFjs.stdin_of o2 →
  fst <$> BFjs.BF fuel1 code (Some o1) = Some r1 →
  fst <$> BFjs.BF fuel2 code (Some o2) = Some r2 →
  r1 = r2.
Proof.
  unfold BFjs.BF. simpl. intros -> -> H1 H2.
  destruct (BFjs.initial_memory _) as [m | e]; [| simpl in *; congruence].
  destruct (for_loop _ fuel1 _ _ _) as [[c1 l1] |] eqn:E1; [| done].
  destruct (for_loop _ fuel2 _ _ _) as [[c2 l2] |] eqn:E2; [| done].
  pose proof (for_loop_agree _ _ _ _ _ _ _ _ E1 E2) as Heq.
  inversion Heq; subst. destruct c2; simpl in *; congruence.
Qed.

(** The same for the first call on an object of the class that keeps its
    state. *)
Lemma InstanceFields_first_result_determined fuel1 fuel2 code o1 o2 b1 b2
  r1 r2 :
  MemoryWords o1 = MemoryWords o2 →
  StdIn o1 = StdIn o2 →
  InstanceFields.new_BFInterpreter code (Some o1) = Normal b1 →
  InstanceFields.new_BFInterpreter code (Some o2) = Normal b2 →
  returned (InstanceFields.Interpret fuel1 b1) = Some r1 →
  returned (InstanceFields.Interpret fuel2 b2) = Some r2 →
  r1 = r2.
Proof.
  intros Hw Hs Hb1 Hb2 H1 H2.
  assert (b2 = InstanceFields_with_sinks b1 (Quiet o2) (OutputElement o2)
                 (CompleteCallback o2)) as ->.
  { unfold InstanceFields.new_BFInterpreter in Hb1, Hb2. simpl in *.
    rewrite <- Hw in Hb2.
    destruct (new_Array_fill0 _); [| done].
    inversion Hb1; inversion Hb2; subst.
    unfold InstanceFields_with_sinks, with_sinks. simpl.
    rewrite Hw, Hs. by destruct o2. }
  rewrite InstanceFields_returned_sinks in H2.
  destruct (InstanceFields.Interpret fuel1 _) as [[[c1 ?] ?] |] eqn:E1;
    [| done].
  destruct (InstanceFields.Interpret fuel2 _) as [[[c2 ?] ?] |] eqn:E2;
    [| done].
  pose proof (InstanceFields_Interpret_agree _ _ _ _ _ E1 E2) as Heq.
  simpl in H1, H2. congruence.
Qed.

(** C8, on the code.  Two runs of the same script on the same input with
    the same number of words differ when the second is a second call of
    [Interpret] on an object of the class that keeps its state: on the
    script [",."] with input ["A"] the first call returns ["A"]; it leaves
    the input cursor at 1, so the second call reads past the input and
    returns the character of code 0. *)
Theorem second_run_of_same_script_differs :
  ∃ this0 this1 this2,
    InstanceFields.new_BFInterpreter (str ",.")
      (Some (quiet_options 3 (str "A"))) = Normal this0
    ∧ InstanceFields.Interpret 3 this0 = Some (Normal (str "A"), this1, [])
    ∧ InstanceFields.code this1 = InstanceFields.code this0
    ∧ InstanceFields.options this1 = InstanceFields.options this0
    ∧ InstanceFields.stdInPointer this1 = 1%nat
    ∧ InstanceFields.Interpret 3 this1 = Some (Normal [0], this2, []).
Proof.
  eexists _, _, _. split; [reflexivity |].
  split; [by vm_compute |]. repeat split; by vm_compute.
Qed.

(** ** The copying script *)

Lemma for_loop_S {S : Type} (body : nat → jsstring → S → round S) fuel i
  stdOut st :
  for_loop body (Datatypes.S fuel) i stdOut st
  = match body i stdOut st with
    | Next i' stdOut' st' => for_loop body fuel i' stdOut' st'
    | Leave stdOut' st' => Some (Normal stdOut', st')
    | Raise e st' => Some (Throw e, st')
    end.
Proof. reflexivity. Qed.

Lemma copy_script_S n :
  copy_script (S n) = unit_of "," :: unit_of "." :: copy_script n.
Proof. reflexivity. Qed.

Lemma copy_script_length n : List.length (copy_script n) = (2 * n)%nat.
Proof.
  induction n as [| n IH]; [done |].
  rewrite copy_script_S. simpl List.length. rewrite IH. lia.
Qed.

Lemma lookup_past_pair (x y : Z) (l : list Z) (j : nat) :
  (x :: y :: l) !! S (S j) = l !! j.
Proof. reflexivity. Qed.

Lemma copy_script_lookup n k :
  (k < n)%nat →
  copy_script n !! (2 * k)%nat = Some (unit_of ",")
  ∧ copy_script n !! S (2 * k) = Some (unit_of ".").
Proof.
  revert k. induction n as [| n IH]; intros k Hk; [lia |].
  rewrite copy_script_S. destruct k as [| k]; [done |].
  replace (2 * S k)%nat with (S (S (2 * k))) by lia.
  rewrite !lookup_past_pair. apply IH. lia.
Qed.

Lemma copy_script_end n : copy_script n !! (2 * n)%nat = None.
Proof. apply lookup_ge_None_2. by rewrite copy_script_length. Qed.

(** The rounds at [","] and at ["."]. *)
Lemma StateObject_round_read code stdIn i stdOut st :
  code !! i = Some (unit_of ",") →
  StateObject.loop_round code stdIn i stdOut st
  = Next (S i) stdOut (StateObject.ReadCharFromStdIn st stdIn).
Proof. intros Hi. unfold StateObject.loop_round. by rewrite Hi. Qed.

Lemma StateObject_round_write code stdIn i stdOut st :
  code !! i = Some (unit_of ".") →
  StateObject.loop_round code stdIn i stdOut st
  = Next (S i) (stdOut ++ [StateObject.GetCharForStdOut st]) st.
Proof. intros Hi. unfold StateObject.loop_round. by rewrite Hi. Qed.

Lemma InstanceFields_round_read code i stdOut this :
  code !! i = Some (unit_of ",") →
  InstanceFields.loop_round code i stdOut this
  = Next (S i) stdOut (InstanceFields.ReadCharFromStdIn this).
Proof. intros Hi. unfold InstanceFields.loop_round. by rewrite Hi. Qed.

Lemma InstanceFields_round_write code i stdOut this :
  code !! i = Some (unit_of ".") →
  InstanceFields.loop_round code i stdOut this
  = Next (S i) (stdOut ++ [InstanceFields.GetCharForStdOut this]) this.
Proof. intros Hi. unfold InstanceFields.loop_round. by rewrite Hi. Qed.

Lemma BFjs_round_read code stdin i std_out l :
  code !! i = Some (unit_of ",") →
  BFjs.loop_round code stdin i std_out l
  = Next (S i) std_out (BFjs.read l stdin).
Proof. intros Hi. unfold BFjs.loop_round. by rewrite Hi. Qed.

Lemma BFjs_round_write code stdin i std_out l :
  code !! i = Some (unit_of ".") →
  BFjs.loop_round code stdin i std_out l
  = Next (S i)
      (std_out ++ [fromCharCode (aget (BFjs.memory l) (BFjs.mem_index l))])
      l.
Proof. intros Hi. unfold BFjs.loop_round. by rewrite Hi. Qed.

(** From the [k]-th pair on, the copying script appends the rest of the
    input to the output and leaves the loop. *)
Lemma StateObject_copy_rounds s m :
  wf_string s →
  ∀ k stdOut st,
    (k + m = List.length s)%nat →
    StateObject.stdInPointer st = k →
    ∃ st',
      for_loop (StateObject.loop_round (copy_script (List.length s)) s)
        (2 * m + 1) (2 * k) stdOut st
      = Some (Normal (stdOut ++ drop k s), st').
Proof.
  intros Hwf. induction m as [| m IH]; intros k stdOut st Hk Hp.
  - exists st. assert (k = List.length s) as -> by lia.
    change (2 * 0 + 1)%nat with 1%nat. rewrite for_loop_S.
    unfold StateObject.loop_round. rewrite copy_script_end.
    by rewrite drop_all, app_nil_r.
  - destruct (lookup_lt_is_Some_2 s k) as [c Hc]; [lia |].
    destruct (copy_script_lookup (List.length s) k) as [Hr Hw]; [lia |].
    replace (2 * S m + 1)%nat with (S (S (2 * m + 1))) by lia.
    rewrite for_loop_S, (StateObject_round_read _ _ _ _ _ Hr).
    rewrite for_loop_S, (StateObject_round_write _ _ _ _ _ Hw).
    replace (S (S (2 * k))) with (2 * S k)%nat by lia.
    destruct (IH (S k)
                (stdOut
                 ++ [StateObject.GetCharForStdOut
                       (StateObject.ReadCharFromStdIn st s)])
                (StateObject.ReadCharFromStdIn st s)) as [st' Hst'];
      [lia | by simpl; rewrite Hp |].
    exists st'. rewrite Hst'.
    assert (StateObject.GetCharForStdOut (StateObject.ReadCharFromStdIn st s)
            = c) as ->.
    { unfold StateObject.GetCharForStdOut, StateObject.ReadCharFromStdIn.
      cbn [StateObject.memory StateObject.memoryPointer].
      rewrite aget_aset_eq. unfold charCodeAt. rewrite Hp, Hc.
      apply fromCharCode_unit.
      eapply Forall_lookup_1 in Hwf; [| exact Hc]. done. }
    by rewrite <- app_assoc, (drop_S s c k Hc).
Qed.

Lemma InstanceFields_copy_rounds s m :
  wf_string s →
  ∀ k stdOut this,
    (k + m = List.length s)%nat →
    StdIn (InstanceFields.options this) = s →
    InstanceFields.stdInPointer this = k →
    ∃ this',
      for_loop (InstanceFields.loop_round (copy_script (List.length s)))
        (2 * m + 1) (2 * k) stdOut this
      = Some (Normal (stdOut ++ drop k s), this').
Proof.
  intros Hwf. induction m as [| m IH]; intros k stdOut this Hk Hs Hp.
  - exists this. assert (k = List.length s) as -> by lia.
    change (2 * 0 + 1)%nat with 1%nat. rewrite for_loop_S.
    unfold InstanceFields.loop_round. rewrite copy_script_end.
    by rewrite drop_all, app_nil_r.
  - destruct (lookup_lt_is_Some_2 s k) as [c Hc]; [lia |].
    destruct (copy_script_lookup (List.length s) k) as [Hr Hw]; [lia |].
    replace (2 * S m + 1)%nat with (S (S (2 * m + 1))) by lia.
    rewrite for_loop_S, (InstanceFields_round_read _ _ _ _ Hr).
    rewrite for_loop_S, (InstanceFields_round_write _ _ _ _ Hw).
    replace (S (S (2 * k))) with (2 * S k)%nat by lia.
    destruct (IH (S k)
                (stdOut
                 ++ [InstanceFields.GetCharForStdOut
                       (InstanceFields.ReadCharFromStdIn this)])
                (InstanceFields.ReadCharFromStdIn this)) as [this' Hst'];
      [lia | done | by simpl; rewrite Hp |].
    exists this'. rewrite Hst'.
    assert (InstanceFields.GetCharForStdOut
              (InstanceFields.ReadCharFromStdIn this) = c) as ->.
    { unfold InstanceFields.GetCharForStdOut,
        InstanceFields.ReadCharFromStdIn.
      cbn [InstanceFields.memory InstanceFields.memoryPointer].
      rewrite aget_aset_eq. unfold charCodeAt. rewrite Hs, Hp, Hc.
      apply fromCharCode_unit.
      eapply Forall_lookup_1 in Hwf; [| exact Hc]. done. }
    by rewrite <- app_assoc, (drop_S s c k Hc).
Qed.

Lemma BFjs_copy_rounds s m :
  wf_string s →
  ∀ k std_out l,
    (k + m = List.length s)%nat →
    BFjs.stdin_index l = k →
    ∃ l',
      for_loop (BFjs.loop_round (copy_script (List.length s)) s)
        (2 * m + 1) (2 * k) std_out l
      = Some (Normal (std_out ++ drop k s), l').
Proof.
  intros Hwf. induction m as [| m IH]; intros k std_out l Hk Hp.
  - exists l. assert (k = List.length s) as -> by lia.
    change (2 * 0 + 1)%nat with 1%nat. rewrite for_loop_S.
    unfold BFjs.loop_round. rewrite copy_script_end.
    by rewrite drop_all, app_nil_r.
  - destruct (lookup_lt_is_Some_2 s k) as [c Hc]; [lia |].
    destruct (copy_script_lookup (List.length s) k) as [Hr Hw]; [lia |].
    replace (2 * S m + 1)%nat with (S (S (2 * m + 1))) by lia.
    rewrite for_loop_S, (BFjs_round_read _ _ _ _ _ Hr).
    rewrite for_loop_S, (BFjs_round_write _ _ _ _ _ Hw).
    replace (S (S (2 * k))) with (2 * S k)%nat by lia.
    destruct (IH (S k)
                (std_out
                 ++ [fromCharCode
                       (aget (BFjs.memory (BFjs.read l s))
                          (BFjs.mem_index (BFjs.read l s)))])
                (BFjs.read l s)) as [l' Hl'];
      [lia | by simpl; rewrite Hp |].
    exists l'. rewrite Hl'.
    assert (fromCharCode
              (aget (BFjs.memory (BFjs.read l s))
                 (BFjs.mem_index (BFjs.read l s))) = c) as ->.
    { unfold BFjs.read. cbn [BFjs.memory BFjs.mem_index].
      rewrite aget_aset_eq. unfold charCodeAt. rewrite Hp, Hc.
      apply fromCharCode_unit.
      eapply Forall_lookup_1 in Hwf; [| exact Hc]. done. }
    by rewrite <- app_assoc, (drop_S s c k Hc).
Qed.

(** C6.  For every input string [s], of length [n], the script made of
    [n] pairs [",."] run on [s] returns exactly [s]: by [Interpret] of the
    class with a state object, by the first [Interpret] of an object of
    the class that keeps its state, and by [BF].  The number of words is
    one an array can have, so that the tape can be built. *)
Theorem copy_script_echoes_input o :
  wf_string (StdIn o) →
  0 ≤ MemoryWords o < 4294967296 →
  let n := List.length (StdIn o) in
  returned
    (StateObject.Interpret (2 * n + 1)
       (StateObject.new_BFInterpreter (copy_script n) (Some o)))
  = Some (Normal (StdIn o))
  ∧ (∃ this,
       InstanceFields.new_BFInterpreter (copy_script n) (Some o)
       = Normal this
       ∧ returned (InstanceFields.Interpret (2 * n + 1) this)
         = Some (Normal (StdIn o)))
  ∧ (∀ opts,
       BFjs.stdin_of opts = StdIn o →
       BFjs.mem_size_of opts < 4294967296 →
       fst <$> BFjs.BF (2 * n + 1) (copy_script n) (Some opts)
       = Some (Normal (StdIn o))).
Proof.
  intros Hwf Hwords n. split; [| split].
  - unfold StateObject.Interpret, StateObject.InterpretInternal,
      StateObject.new_BFInterpreterState, new_Array_fill0.
    cbn [StateObject.options StateObject.code].
    rewrite bool_decide_eq_true_2 by done.
    edestruct (StateObject_copy_rounds (StdIn o) n Hwf 0%nat []) as [st' Hst'];
      [subst n; lia | | ].
    2: { change (2 * 0)%nat with 0%nat in Hst'. subst n. rewrite Hst'.
         done. }
    done.
  - unfold InstanceFields.new_BFInterpreter, new_Array_fill0.
    cbn [default]. rewrite bool_decide_eq_true_2 by done.
    eexists. split; [reflexivity |].
    unfold InstanceFields.Interpret, InstanceFields.InterpretInternal.
    cbn [InstanceFields.code].
    edestruct (InstanceFields_copy_rounds (StdIn o) n Hwf 0%nat [])
      as [this' Hst']; [subst n; lia | | | ].
    3: { change (2 * 0)%nat with 0%nat in Hst'. subst n. rewrite Hst'.
         done. }
    all: done.
  - intros opts Hin Hsize. unfold BFjs.BF, BFjs.initial_memory.
    cbv [default from_option id].
    rewrite bool_decide_eq_true_2 by done. rewrite Hin.
    edestruct (BFjs_copy_rounds (StdIn o) n Hwf 0%nat []) as [l' Hl'];
      [subst n; lia | | ].
    2: { change (2 * 0)%nat with 0%nat in Hl'. subst n. rewrite Hl'.
         done. }
    done.
Qed.

Lemma copy_script_echoes_input_witness :
  returned
    (StateObject.Interpret 5
       (StateObject.new_BFInterpreter (str ",.,.")
          (Some (quiet_options 3 (str "Hi")))))
  = Some (Normal (str "Hi"))
  ∧ fst <$> BFjs.BF 5 (str ",.,.") (Some (quiet_opts 3 (str "Hi")))
    = Some (Normal (str "Hi")).
Proof.
  assert (wf_string (str "Hi")) as Hwf.
  { repeat (constructor; [unfold unit_of; simpl; lia |]). constructor. }
  assert (0 ≤ 3 < 4294967296) as Hwords by lia.
  split.
  - exact (proj1 (copy_script_echoes_input (quiet_options 3 (str "Hi"))
                    Hwf Hwords)).
  - apply (proj2 (proj2 (copy_script_echoes_input
                           (quiet_options 3 (str "Hi")) Hwf Hwords))
             (quiet_opts 3 (str "Hi"))).
    + reflexivity.
    + reflexivity.
Defined.

(** * Further properties of the code *)

(** ** More facts about the loop *)

(** What every round keeps holds of every round of a run. *)
Lemma after_round_invariant {S : Type}
  (body : nat → jsstring → S → round S) (Q : round S → Prop) :
  (∀ i stdOut st, Q (Next i stdOut st) → Q (body i stdOut st)) →
  ∀ n r, Q r → Q (after body n r).
Proof.
  intros Hstep. induction n as [| n IH]; intros r Hr; simpl; [done |].
  destruct r as [i o s | o s | e s]; [| done | done].
  by apply IH, Hstep.
Qed.

(** A finished loop stood at some position of a run, and the round there
    was its last. *)
Lemma for_loop_last {S : Type} (body : nat → jsstring → S → round S)
  fuel i stdOut st c st' :
  for_loop body fuel i stdOut st = Some (c, st') →
  ∃ n j stdOut0 st0,
    after body n (Next i stdOut st) = Next j stdOut0 st0
    ∧ body j stdOut0 st0 = last_round c st'.
Proof.
  revert i stdOut st.
  induction fuel as [| fuel IH]; intros i stdOut st H; [discriminate |].
  simpl in H.
  destruct (body i stdOut st) as [i1 o1 s1 | o1 s1 | e1 s1] eqn:Hb.
  - destruct (IH _ _ _ H) as (n & j & o0 & s0 & Hn & Hlast).
    exists (Datatypes.S n), j, o0, s0. simpl. by rewrite Hb.
  - inversion H; subst. by exists 0%nat, i, stdOut, st.
  - inversion H; subst. by exists 0%nat, i, stdOut, st.
Qed.

Lemma for_loop_end {S : Type} (body : nat → jsstring → S → round S)
  fuel i stdOut st c st' :
  for_loop body fuel i stdOut st = Some (c, st') →
  ∃ n, after body n (Next i stdOut st) = last_round c st'.
Proof.
  intros H. destruct (for_loop_last _ _ _ _ _ _ _ H)
    as (n & j & o0 & s0 & Hn & Hlast).
  exists (n + 1)%nat. clear H. revert i stdOut st Hn.
  induction n as [| n IH]; intros i stdOut st Hn; simpl in *.
  - inversion Hn; subst. by rewrite Hlast.
  - destruct (body i stdOut st) as [i1 o1 s1 | o1 s1 | e1 s1].
    + by apply IH.
    + destruct n; discriminate.
    + destruct n; discriminate.
Qed.

(** A loop whose rounds only go one position forward, and which is left
    at the end of a script of length [len], ends within [len + 1 - i]
    rounds from position [i]. *)
Lemma for_loop_forward {S : Type} (body : nat → jsstring → S → round S)
  (len : nat) :
  (∀ i stdOut st,
     match body i stdOut st with
     | Next i' _ _ => (i < len)%nat ∧ i' = Datatypes.S i
     | _ => True
     end) →
  ∀ k i stdOut st,
    (len ≤ i + k)%nat →
    is_Some (for_loop body (Datatypes.S k) i stdOut st).
Proof.
  intros Hfwd. induction k as [| k IH]; intros i stdOut st Hk.
  - simpl. specialize (Hfwd i stdOut st).
    destruct (body i stdOut st); [lia | done | done].
  - rewrite for_loop_S. specialize (Hfwd i stdOut st).
    destruct (body i stdOut st) as [i1 o1 s1 | o1 s1 | e1 s1];
      [| done | done].
    destruct Hfwd as [_ ->]. apply IH. lia.
Qed.

(** ** What a call leaves in its object *)

Ltac rewrite_tokens :=
  repeat match goal with
         | H : tok_is _ _ = false |- _ => rewrite H; clear H
         end.

(** A call of the first class leaves the script and the options of its
    object as they are. *)
Lemma InstanceFields_Interpret_keeps fuel this r this' evs :
  InstanceFields.Interpret fuel this = Some (r, this', evs) →
  InstanceFields.code this' = InstanceFields.code this
  ∧ InstanceFields.options this' = InstanceFields.options this.
Proof.
  unfold InstanceFields.Interpret, InstanceFields.InterpretInternal.
  intros H.
  destruct (for_loop _ fuel _ _ _) as [[c st] |] eqn:Hl; [| done].
  assert (this' = st) as -> by (destruct c; by inversion H).
  apply for_loop_state in Hl as [n ->].
  apply (after_invariant _
           (λ b, InstanceFields.code b = InstanceFields.code this
                 ∧ InstanceFields.options b = InstanceFields.options this));
    [| done].
  intros i stdOut st [Hc Ho].
  destruct (InstanceFields_round_code (InstanceFields.code this) i stdOut st)
    as [-> ->]. done.
Qed.

(** ** The pointer and the tape *)

Lemma aset_cells words m p x :
  (∀ k, 0 ≤ k < words → is_Some (aget m k)) →
  ∀ k, 0 ≤ k < words → is_Some (aget (aset m p x) k).
Proof.
  intros Hm k Hk. destruct (decide (p = k)) as [-> | Hne].
  - rewrite aget_aset_eq. by eexists.
  - rewrite aget_aset_ne by done. by apply Hm.
Qed.

Lemma aset_length_bounded words m p x :
  0 ≤ p ≤ words →
  words ≤ alength m ≤ words + 1 →
  words ≤ alength (aset m p x) ≤ words + 1.
Proof. intros Hp Hm. unfold aset; simpl. case_bool_decide; lia. Qed.

Lemma aset_length_grows words m p x :
  0 ≤ p ≤ alength m →
  words ≤ alength m →
  p ≤ alength (aset m p x) ∧ words ≤ alength (aset m p x).
Proof. intros Hp Hm. unfold aset; simpl. case_bool_decide; lia. Qed.

Lemma InstanceFields_round_in_range code i stdOut this :
  InstanceFields_in_range this →
  while_running (λ _ b, InstanceFields_in_range b)
    (InstanceFields.loop_round code i stdOut this).
Proof.
  intros (Hp & Hl & Hc). unfold InstanceFields.loop_round.
  destruct (code !! i) as [token |]; [| done].
  token_cases token; simpl; try done.
  - pose proof (InstanceFields_Move_check this 1) as Hm. simpl in Hm.
    pose proof (InstanceFields_Move_state this 1) as Hs.
    destruct (InstanceFields.MoveMemoryPointer this 1) as [b [e |]];
      [done |]. simpl in *. subst b.
    repeat case_bool_decide; try done.
    unfold InstanceFields_in_range; simpl. repeat split; try done; lia.
  - pose proof (InstanceFields_Move_check this (-1)) as Hm. simpl in Hm.
    pose proof (InstanceFields_Move_state this (-1)) as Hs.
    destruct (InstanceFields.MoveMemoryPointer this (-1)) as [b [e |]];
      [done |]. simpl in *. subst b.
    repeat case_bool_decide; try done.
    unfold InstanceFields_in_range; simpl. repeat split; try done; lia.
  - unfold InstanceFields_in_range; simpl.
    split; [done |].
    split; [exact (aset_length_bounded _ _ _ NaN Hp Hl) |].
    by apply aset_cells.
  - unfold InstanceFields_in_range; simpl.
    split; [done |].
    split; [exact (aset_length_bounded _ _ _ NaN Hp Hl) |].
    by apply aset_cells.
  - unfold InstanceFields_in_range; simpl.
    split; [done |].
    split; [exact (aset_length_bounded _ _ _ NaN Hp Hl) |].
    by apply aset_cells.
  - destruct (InstanceFields.IsMemoryLocationZero this); simpl; [done |].
    by destruct (InstanceFields.PeekLoopStartIndices this).
Qed.

Lemma StateObject_round_in_range words code stdIn i stdOut st :
  StateObject_in_range words st →
  while_running (λ _ s, StateObject_in_range words s)
    (StateObject.loop_round code stdIn i stdOut st).
Proof.
  intros (Hp & Hl & Hc). unfold StateObject.loop_round.
  destruct (code !! i) as [token |]; [| done].
  token_cases token; simpl; try done.
  - pose proof (StateObject_Move_check st 1) as Hm. simpl in Hm.
    pose proof (StateObject_Move_state st 1) as Hs.
    destruct (StateObject.MoveMemoryPointer st 1) as [b [e |]];
      [done |]. simpl in *. subst b.
    repeat case_bool_decide; try done.
    unfold StateObject_in_range; simpl. repeat split; try done; lia.
  - pose proof (StateObject_Move_check st (-1)) as Hm. simpl in Hm.
    pose proof (StateObject_Move_state st (-1)) as Hs.
    destruct (StateObject.MoveMemoryPointer st (-1)) as [b [e |]];
      [done |]. simpl in *. subst b.
    repeat case_bool_decide; try done.
    unfold StateObject_in_range; simpl. repeat split; try done; lia.
  - unfold StateObject_in_range; simpl.
    destruct (aset_length_grows words (StateObject.memory st)
                (StateObject.memoryPointer st)
                (add (ToNumber (aget (StateObject.memory st)
                                  (StateObject.memoryPointer st))) 1))
      as [? ?]; [done | done |].
    repeat split; try done; try lia. by apply aset_cells.
  - unfold StateObject_in_range; simpl.
    destruct (aset_length_grows words (StateObject.memory st)
                (StateObject.memoryPointer st)
                (add (ToNumber (aget (StateObject.memory st)
                                  (StateObject.memoryPointer st))) (-1)))
      as [? ?]; [done | done |].
    repeat split; try done; try lia. by apply aset_cells.
  - unfold StateObject_in_range; simpl.
    destruct (aset_length_grows words (StateObject.memory st)
                (StateObject.memoryPointer st)
                (charCodeAt stdIn (StateObject.stdInPointer st)))
      as [? ?]; [done | done |].
    repeat split; try done; try lia. by apply aset_cells.
  - destruct (StateObject.IsMemoryLocationZero st); simpl; [done |].
    by destruct (StateObject.PeekLoopStartIndices st).
Qed.

Lemma InstanceFields_fresh_in_range code o this0 :
  InstanceFields.new_BFInterpreter code o = Normal this0 →
  InstanceFields_in_range this0.
Proof.
  unfold InstanceFields.new_BFInterpreter, new_Array_fill0.
  case_bool_decide as Hw; [| done]. intros [= <-].
  unfold InstanceFields_in_range; simpl.
  split; [lia |]. split; [lia |]. intros k Hk.
  unfold aget; simpl. rewrite lookup_zeros.
  rewrite bool_decide_eq_true_2 by done. by eexists.
Qed.

Lemma InstanceFields_run_in_range code n this :
  InstanceFields_in_range this →
  while_running (λ _ b, InstanceFields_in_range b)
    (after (InstanceFields.loop_round code) n (Next 0 [] this)).
Proof.
  intros Hin.
  apply (after_round_invariant _
           (while_running (λ _ b, InstanceFields_in_range b)));
    [| done].
  intros i stdOut st Hst. by apply InstanceFields_round_in_range.
Qed.

(** X5.  The pointer and the tape stay in range.  In a run on an object
    of the first class whose pointer and tape are in range, as they are
    after the constructor, they are in range at every round that does not
    raise: the pointer lies from 0 to [MemoryWords] (this number
    included), the tape has [MemoryWords] cells or one more, and each of
    the first [MemoryWords] cells holds a number; a call that returns
    hands this on to the next call.  In a run of the class with a state
    object the pointer lies from 0 to the length of the tape, which never
    falls below [MemoryWords], and the first [MemoryWords] cells hold
    numbers. *)
Theorem pointer_and_tape_stay_in_range code n :
  (∀ o this0,
     InstanceFields.new_BFInterpreter code o = Normal this0 →
     InstanceFields_in_range this0)
  ∧ (∀ this,
       InstanceFields_in_range this →
       while_running (λ _ b, InstanceFields_in_range b)
         (after (InstanceFields.loop_round code) n (Next 0 [] this)))
  ∧ (∀ this fuel stdOut this' evs,
       InstanceFields_in_range this →
       InstanceFields.Interpret fuel this
       = Some (Normal stdOut, this', evs) →
       InstanceFields_in_range this')
  ∧ (∀ o st0,
       StateObject.new_BFInterpreterState o = Normal st0 →
       while_running (λ _ s, StateObject_in_range (MemoryWords o) s)
         (after (StateObject.loop_round code (StdIn o)) n
            (Next 0 [] st0))).
Proof.
  split; [| split; [| split]].
  - intros o this0. apply InstanceFields_fresh_in_range.
  - intros this Hin. by apply InstanceFields_run_in_range.
  - intros this fuel stdOut this' evs Hin H.
    unfold InstanceFields.Interpret, InstanceFields.InterpretInternal in H.
    destruct (for_loop _ fuel _ _ _) as [[[out | e] st] |] eqn:Hl;
      [| done | done].
    inversion H; subst.
    destruct (for_loop_end _ _ _ _ _ _ _ Hl) as [k Hk].
    pose proof (InstanceFields_run_in_range (InstanceFields.code this) k
                  this Hin) as Hinv.
    by rewrite Hk in Hinv.
  - intros o st0 Hnew.
    apply (after_round_invariant _
             (while_running (λ _ s, StateObject_in_range (MemoryWords o) s))).
    + intros i stdOut st Hst. by apply StateObject_round_in_range.
    + destruct (StateObject_fresh_state _ _ Hnew)
        as (Hp & _ & _ & Hlen & Hcells).
      unfold StateObject.new_BFInterpreterState, new_Array_fill0 in Hnew.
      case_bool_decide as Hw; [| done].
      unfold while_running, StateObject_in_range.
      rewrite Hp, Hlen. split; [lia |]. split; [lia |].
      intros k Hk. rewrite Hcells.
      rewrite bool_decide_eq_true_2 by done. by eexists.
Qed.

Lemma pointer_and_tape_stay_in_range_witness :
  while_running (λ _ b, InstanceFields_in_range b)
    (after (InstanceFields.loop_round (str "+>+>+>+")) 7
       (Next 0 []
          {| InstanceFields.code := str "+>+>+>+";
             InstanceFields.options := quiet_options 3 [];
             InstanceFields.memoryPointer := 0;
             InstanceFields.memory := {| props := zeros 3; alength := 3 |};
             InstanceFields.stdInPointer := 0;
             InstanceFields.loopStartIndices := [] |})).
Proof.
  apply (proj1 (proj2 (pointer_and_tape_stay_in_range (str "+>+>+>+") 7))).
  apply (proj1 (pointer_and_tape_stay_in_range (str "+>+>+>+") 7)
           (Some (quiet_options 3 []))).
  reflexivity.
Defined.

(** ** Where the errors are raised *)

Lemma StateObject_run_in_range code o st0 n :
  StateObject.new_BFInterpreterState o = Normal st0 →
  while_running (λ _ s, StateObject_in_range (MemoryWords o) s)
    (after (StateObject.loop_round code (StdIn o)) n (Next 0 [] st0)).
Proof.
  intros Hnew.
  apply (after_round_invariant _
           (while_running (λ _ s, StateObject_in_range (MemoryWords o) s))).
  - intros i stdOut st Hst. by apply StateObject_round_in_range.
  - destruct (StateObject_fresh_state _ _ Hnew)
      as (Hp & _ & _ & Hlen & Hcells).
    unfold StateObject.new_BFInterpreterState, new_Array_fill0 in Hnew.
    case_bool_decide as Hw; [| done].
    unfold while_running, StateObject_in_range.
    rewrite Hp, Hlen. split; [lia |]. split; [lia |].
    intros k Hk. rewrite Hcells.
    rewrite bool_decide_eq_true_2 by done. by eexists.
Qed.

Lemma StateObject_round_accurate code stdIn i stdOut st e st' :
  0 ≤ StateObject.memoryPointer st ≤ alength (StateObject.memory st) →
  StateObject.loop_round code stdIn i stdOut st = Raise e st' →
  accurate_error code i (StateObject.memoryPointer st)
    (StateObject.stdInPointer st) (alength (StateObject.memory st)) e.
Proof.
  intros Hp. unfold StateObject.loop_round.
  destruct (code !! i) as [token |] eqn:Hi; [| done].
  intros H.
  token_cases token; simpl in H; try discriminate.
  - pose proof (StateObject_Move_check st 1) as Hc. simpl in Hc.
    destruct (StateObject.MoveMemoryPointer st 1) as [s1 [e1 |]];
      [| done]. inversion H; subst. simpl in Hc.
    repeat case_bool_decide; inversion Hc; subst; simpl;
      repeat split; try done; lia.
  - pose proof (StateObject_Move_check st (-1)) as Hc. simpl in Hc.
    destruct (StateObject.MoveMemoryPointer st (-1)) as [s1 [e1 |]];
      [| done]. inversion H; subst. simpl in Hc.
    repeat case_bool_decide; inversion Hc; subst; simpl;
      repeat split; try done; lia.
  - destruct (StateObject.IsMemoryLocationZero st); [done |].
    by destruct (StateObject.PeekLoopStartIndices st).
  - inversion H; subst. simpl. split; [done |]. split; [done |].
    unfold instruction. by rewrite_tokens.
Qed.

Lemma InstanceFields_round_accurate code i stdOut this e this' :
  0 ≤ InstanceFields.memoryPointer this
  ≤ MemoryWords (InstanceFields.options this) →
  InstanceFields.loop_round code i stdOut this = Raise e this' →
  accurate_error code i (InstanceFields.memoryPointer this)
    (InstanceFields.stdInPointer this)
    (MemoryWords (InstanceFields.options this)) e.
Proof.
  intros Hp. unfold InstanceFields.loop_round.
  destruct (code !! i) as [token |] eqn:Hi; [| done].
  intros H.
  token_cases token; simpl in H; try discriminate.
  - pose proof (InstanceFields_Move_check this 1) as Hc. simpl in Hc.
    destruct (InstanceFields.MoveMemoryPointer this 1) as [s1 [e1 |]];
      [| done]. inversion H; subst. simpl in Hc.
    repeat case_bool_decide; inversion Hc; subst; simpl;
      repeat split; try done; lia.
  - pose proof (InstanceFields_Move_check this (-1)) as Hc. simpl in Hc.
    destruct (InstanceFields.MoveMemoryPointer this (-1)) as [s1 [e1 |]];
      [| done]. inversion H; subst. simpl in Hc.
    repeat case_bool_decide; inversion Hc; subst; simpl;
      repeat split; try done; lia.
  - destruct (InstanceFields.IsMemoryLocationZero this); [done |].
    by destruct (InstanceFields.PeekLoopStartIndices this).
  - inversion H; subst. simpl. split; [done |]. split; [done |].
    unfold instruction. by rewrite_tokens.
Qed.

(** X1.  The errors the classes raise are accurate.  When [Interpret]
    throws one of the three errors of the interpreter, the run has come
    without an error to a position [i] of the script, and there: the
    invalid-character error carries [i] and the character the script holds
    at [i], which is none of the eight instructions; the below-zero error
    is raised at a ["<"] with the pointer at 0 and reports the pointer -1;
    the above-limit error is raised at a [">"] with the pointer at the
    greatest value the check accepts ([MemoryWords] in the first class,
    on an object whose pointer and tape were in range; the length of the
    tape, never below [MemoryWords], in the class with a state object)
    and reports the pointer one past it, this value and, as the greatest
    pointer allowed, this value less one.  Both pointer errors report the
    input cursor of the run.  Nothing is said of an error raised by the
    library. *)
Theorem raised_errors_are_accurate code e fuel :
  (∀ o st0 this' evs,
     StateObject.new_BFInterpreterState o = Normal st0 →
     StateObject.Interpret fuel (StateObject.new_BFInterpreter code (Some o))
     = Some (Throw e, this', evs) →
     ∃ n i stdOut st,
       after (StateObject.loop_round code (StdIn o)) n (Next 0 [] st0)
       = Next i stdOut st
       ∧ accurate_error code i (StateObject.memoryPointer st)
           (StateObject.stdInPointer st) (alength (StateObject.memory st)) e
       ∧ MemoryWords o ≤ alength (StateObject.memory st))
  ∧ (∀ this this' evs,
       InstanceFields.code this = code →
       InstanceFields_in_range this →
       InstanceFields.Interpret fuel this = Some (Throw e, this', evs) →
       ∃ n i stdOut b,
         after (InstanceFields.loop_round code) n (Next 0 [] this)
         = Next i stdOut b
         ∧ accurate_error code i (InstanceFields.memoryPointer b)
             (InstanceFields.stdInPointer b)
             (MemoryWords (InstanceFields.options this)) e).
Proof.
  split.
  - intros o st0 this' evs Hnew.
    unfold StateObject.Interpret, StateObject.InterpretInternal.
    cbn [StateObject.new_BFInterpreter StateObject.code StateObject.options
         default from_option id].
    rewrite Hnew.
    destruct (for_loop _ fuel _ _ _) as [[[out | e0] st] |] eqn:Hl;
      [done | | done].
    intros [= -> _ _].
    destruct (for_loop_last _ _ _ _ _ _ _ Hl)
      as (n & j & o0 & s0 & Hn & Hlast).
    pose proof (StateObject_run_in_range code o st0 n Hnew) as Hinv.
    rewrite Hn in Hinv. destruct Hinv as (Hp & Hw & _).
    exists n, j, o0, s0. split; [done |]. split; [| done].
    by apply (StateObject_round_accurate _ _ _ _ _ _ _ Hp Hlast).
  - intros this this' evs Hcode Hin.
    unfold InstanceFields.Interpret, InstanceFields.InterpretInternal.
    rewrite Hcode.
    destruct (for_loop _ fuel _ _ _) as [[[out | e0] st] |] eqn:Hl;
      [done | | done].
    intros [= -> _ _].
    destruct (for_loop_last _ _ _ _ _ _ _ Hl)
      as (n & j & o0 & s0 & Hn & Hlast).
    pose proof (InstanceFields_run_in_range code n this Hin) as Hinv.
    rewrite Hn in Hinv. destruct Hinv as (Hp & _ & _).
    assert (InstanceFields.options s0 = InstanceFields.options this) as Hos.
    { change s0 with
        (state_of (Next j o0 s0 : round InstanceFields.BFInterpreter)).
      rewrite <- Hn.
      apply (after_invariant _
               (λ b, InstanceFields.options b = InstanceFields.options this));
        [| done].
      intros i stdOut b Hb.
      by rewrite (proj2 (InstanceFields_round_code _ i stdOut b)). }
    exists n, j, o0, s0. split; [done |].
    rewrite <- Hos.
    by apply (InstanceFields_round_accurate _ _ _ _ _ _ Hp Hlast).
Qed.

Lemma raised_errors_are_accurate_witness :
  (∃ n i stdOut st,
     after (StateObject.loop_round (str "+>>>") []) n
       (Next 0 []
          {| StateObject.memoryPointer := 0;
             StateObject.memory := {| props := zeros 2; alength := 2 |};
             StateObject.stdInPointer := 0;
             StateObject.loopStartIndices := [] |})
     = Next i stdOut st
     ∧ accurate_error (str "+>>>") i (StateObject.memoryPointer st)
         (StateObject.stdInPointer st) (alength (StateObject.memory st))
         (PointerAboveLimit 1 3 0 2)
     ∧ MemoryWords (quiet_options 2 []) ≤ alength (StateObject.memory st))
  ∧ (∃ n i stdOut b,
       after (InstanceFields.loop_round (str ",<")) n
         (Next 0 []
            {| InstanceFields.code := str ",<";
               InstanceFields.options := quiet_options 2 [65];
               InstanceFields.memoryPointer := 0;
               InstanceFields.memory := {| props := zeros 2; alength := 2 |};
               InstanceFields.stdInPointer := 0;
               InstanceFields.loopStartIndices := [] |})
       = Next i stdOut b
       ∧ accurate_error (str ",<") i (InstanceFields.memoryPointer b)
           (InstanceFields.stdInPointer b)
           (MemoryWords (quiet_options 2 [65]))
           (PointerBelowZero (-1) 1 2)).
Proof.
  split.
  - apply (proj1 (raised_errors_are_accurate (str "+>>>")
                    (PointerAboveLimit 1 3 0 2) 5)
             (quiet_options 2 [])
             {| StateObject.memoryPointer := 0;
                StateObject.memory := {| props := zeros 2; alength := 2 |};
                StateObject.stdInPointer := 0;
                StateObject.loopStartIndices := [] |}
             (StateObject.new_BFInterpreter (str "+>>>")
                (Some (quiet_options 2 [])))
             []); reflexivity.
  - apply (proj2 (raised_errors_are_accurate (str ",<")
                    (PointerBelowZero (-1) 1 2) 5)
             {| InstanceFields.code := str ",<";
                InstanceFields.options := quiet_options 2 [65];
                InstanceFields.memoryPointer := 0;
                InstanceFields.memory := {| props := zeros 2; alength := 2 |};
                InstanceFields.stdInPointer := 0;
                InstanceFields.loopStartIndices := [] |}
             {| InstanceFields.code := str ",<";
                InstanceFields.options := quiet_options 2 [65];
                InstanceFields.memoryPointer := -1;
                InstanceFields.memory :=
                  aset {| props := zeros 2; alength := 2 |} 0 (Num 65);
                InstanceFields.stdInPointer := 1;
                InstanceFields.loopStartIndices := [] |}
             []).
    + reflexivity.
    + apply (InstanceFields_fresh_in_range (str ",<")
               (Some (quiet_options 2 [65]))).
      reflexivity.
    + reflexivity.
Defined.

(** ** Scripts without a loop end *)

(** Without a ["]"] in the script a round goes one position forward, and
    only from a position of the script. *)
Lemma StateObject_round_forward code stdIn i stdOut st :
  unit_of "]" ∉ code →
  match StateObject.loop_round code stdIn i stdOut st with
  | Next i' _ _ => (i < List.length code)%nat ∧ i' = S i
  | _ => True
  end.
Proof.
  intros Hno. unfold StateObject.loop_round.
  destruct (code !! i) as [token |] eqn:Hi; [| done].
  pose proof (lookup_lt_Some _ _ _ Hi) as Hlt.
  token_cases token; simpl; try done.
  - by destruct (StateObject.MoveMemoryPointer st 1) as [? [? |]].
  - by destruct (StateObject.MoveMemoryPointer st (-1)) as [? [? |]].
  - destruct Hno. by eapply list_elem_of_lookup_2.
Qed.

Lemma InstanceFields_round_forward code i stdOut this :
  unit_of "]" ∉ code →
  match InstanceFields.loop_round code i stdOut this with
  | Next i' _ _ => (i < List.length code)%nat ∧ i' = S i
  | _ => True
  end.
Proof.
  intros Hno. unfold InstanceFields.loop_round.
  destruct (code !! i) as [token |] eqn:Hi; [| done].
  pose proof (lookup_lt_Some _ _ _ Hi) as Hlt.
  token_cases token; simpl; try done.
  - by destruct (InstanceFields.MoveMemoryPointer this 1) as [? [? |]].
  - by destruct (InstanceFields.MoveMemoryPointer this (-1)) as [? [? |]].
  - destruct Hno. by eapply list_elem_of_lookup_2.
Qed.

Lemma BFjs_round_forward code stdin i std_out l :
  unit_of "]" ∉ code →
  match BFjs.loop_round code stdin i std_out l with
  | Next i' _ _ => (i < List.length code)%nat ∧ i' = S i
  | _ => True
  end.
Proof.
  intros Hno. unfold BFjs.loop_round.
  destruct (code !! i) as [tok |] eqn:Hi; [| done].
  pose proof (lookup_lt_Some _ _ _ Hi) as Hlt.
  token_cases tok; simpl; try done.
  destruct Hno. by eapply list_elem_of_lookup_2.
Qed.

(** X6.  A script without ["]"] always ends: a call on it returns or
    throws within one round per character of the script and one more.
    Only a ["]"] can send the loop back. *)
Theorem script_without_loop_end_terminates code :
  unit_of "]" ∉ code →
  (∀ o,
     is_Some
       (StateObject.Interpret (S (List.length code))
          (StateObject.new_BFInterpreter code o)))
  ∧ (∀ this,
       InstanceFields.code this = code →
       is_Some (InstanceFields.Interpret (S (List.length code)) this))
  ∧ (∀ opts, is_Some (BFjs.BF (S (List.length code)) code opts)).
Proof.
  intros Hno. split; [| split].
  - intros o. unfold StateObject.Interpret, StateObject.InterpretInternal.
    cbn [StateObject.new_BFInterpreter StateObject.code].
    destruct (StateObject.new_BFInterpreterState _) as [st0 | e];
      [| by eexists].
    destruct (for_loop_forward
                (StateObject.loop_round code
                   (StdIn (StateObject.options
                             (StateObject.new_BFInterpreter code o))))
                (List.length code)
                (λ i stdOut st, StateObject_round_forward _ _ i stdOut st Hno)
                (List.length code) 0%nat [] st0) as [[c st] Hl]; [lia |].
    cbn [StateObject.new_BFInterpreter StateObject.options] in Hl |- *.
    rewrite Hl. destruct c; by eexists.
  - intros this Hcode.
    unfold InstanceFields.Interpret, InstanceFields.InterpretInternal.
    rewrite Hcode.
    destruct (for_loop_forward (InstanceFields.loop_round code)
                (List.length code)
                (λ i stdOut st, InstanceFields_round_forward _ i stdOut st Hno)
                (List.length code) 0%nat [] this) as [[c st] Hl]; [lia |].
    rewrite Hl. destruct c; by eexists.
  - intros opts. unfold BFjs.BF.
    destruct (BFjs.initial_memory _) as [m | e]; [| by eexists].
    destruct (for_loop_forward
                (BFjs.loop_round code
                   (BFjs.stdin_of (default BFjs.no_opts opts)))
                (List.length code)
                (λ i stdOut st, BFjs_round_forward _ _ i stdOut st Hno)
                (List.length code) 0%nat [] (BFjs.initial_locals m))
      as [[c st] Hl]; [lia |].
    rewrite Hl. destruct c; by eexists.
Qed.

Lemma script_without_loop_end_terminates_witness :
  is_Some (BFjs.BF 5 (str "[+.,") (Some (quiet_opts 3 (str "A")))).
Proof.
  apply (proj2 (proj2 (script_without_loop_end_terminates (str "[+.,")
                         ltac:(apply (bool_decide_unpack _);
                               by vm_compute)))).
Defined.

(** ** Counting up a cell *)

Lemma add_add x a b : add (add x a) b = add x (a + b).
Proof. destruct x; simpl; [f_equal; lia | done]. Qed.

Lemma fromCharCode_add_0 v :
  fromCharCode v = fromCharCode (Some (add (ToNumber v) 0)).
Proof.
  unfold fromCharCode. simpl. destruct (ToNumber v); simpl; [| done].
  by rewrite Z.add_0_r.
Qed.

Lemma plus_script_lookup n k :
  (k < n)%nat → plus_script n !! k = Some (unit_of "+").
Proof.
  intros Hk. unfold plus_script.
  rewrite lookup_app_l by (by rewrite length_replicate).
  by apply lookup_replicate_2.
Qed.

Lemma plus_script_dot n : plus_script n !! n = Some (unit_of ".").
Proof.
  unfold plus_script.
  rewrite lookup_app_r by (by rewrite length_replicate).
  by rewrite length_replicate, Nat.sub_diag.
Qed.

Lemma plus_script_end n : plus_script n !! S n = None.
Proof.
  apply lookup_ge_None_2. unfold plus_script.
  rewrite length_app, length_replicate. simpl. lia.
Qed.

Lemma StateObject_round_plus code stdIn i stdOut st :
  code !! i = Some (unit_of "+") →
  StateObject.loop_round code stdIn i stdOut st
  = Next (S i) stdOut (StateObject.IncrementMemoryLocation st 1).
Proof. intros Hi. unfold StateObject.loop_round. by rewrite Hi. Qed.

Lemma InstanceFields_round_plus code i stdOut this :
  code !! i = Some (unit_of "+") →
  InstanceFields.loop_round code i stdOut this
  = Next (S i) stdOut (InstanceFields.IncrementMemoryLocation this 1).
Proof. intros Hi. unfold InstanceFields.loop_round. by rewrite Hi. Qed.

Lemma BFjs_round_plus code stdin i std_out l :
  code !! i = Some (unit_of "+") →
  BFjs.loop_round code stdin i std_out l = Next (S i) std_out (BFjs.bump l 1).
Proof. intros Hi. unfold BFjs.loop_round. by rewrite Hi. Qed.

(** With [m] signs ["+"] left to run, the counting script writes the
    current cell raised by [m]. *)
Lemma StateObject_plus_rounds n stdIn m :
  ∀ k stdOut st,
    (k + m = n)%nat →
    ∃ st',
      for_loop (StateObject.loop_round (plus_script n) stdIn) (m + 2) k
        stdOut st
      = Some (Normal
                (stdOut
                 ++ [fromCharCode
                       (Some (add (ToNumber
                                     (aget (StateObject.memory st)
                                        (StateObject.memoryPointer st)))
                                (Z.of_nat m)))]),
              st').
Proof.
  induction m as [| m IH]; intros k stdOut st Hk.
  - assert (k = n) as -> by lia. exists st.
    change (0 + 2)%nat with 2%nat.
    rewrite for_loop_S, (StateObject_round_write _ _ _ _ _ (plus_script_dot n)).
    rewrite for_loop_S. unfold StateObject.loop_round at 1.
    rewrite plus_script_end. unfold StateObject.GetCharForStdOut.
    by rewrite <- fromCharCode_add_0.
  - change (S m + 2)%nat with (S (m + 2)).
    rewrite for_loop_S,
      (StateObject_round_plus _ _ _ _ _ (plus_script_lookup n k ltac:(lia))).
    destruct (IH (S k) stdOut (StateObject.IncrementMemoryLocation st 1))
      as [st' Hst']; [lia |].
    exists st'. rewrite Hst'.
    assert (add (ToNumber
                   (aget (StateObject.memory
                            (StateObject.IncrementMemoryLocation st 1))
                      (StateObject.memoryPointer
                         (StateObject.IncrementMemoryLocation st 1))))
              (Z.of_nat m)
            = add (ToNumber
                     (aget (StateObject.memory st)
                        (StateObject.memoryPointer st)))
                (Z.of_nat (S m))) as ->; [| done].
    unfold StateObject.IncrementMemoryLocation.
    cbn [StateObject.with_memory StateObject.memory
         StateObject.memoryPointer].
    rewrite aget_aset_eq. cbn [ToNumber]. rewrite add_add. f_equal. lia.
Qed.

Lemma InstanceFields_plus_rounds n m :
  ∀ k stdOut this,
    (k + m = n)%nat →
    ∃ this',
      for_loop (InstanceFields.loop_round (plus_script n)) (m + 2) k
        stdOut this
      = Some (Normal
                (stdOut
                 ++ [fromCharCode
                       (Some (add (ToNumber
                                     (aget (InstanceFields.memory this)
                                        (InstanceFields.memoryPointer this)))
                                (Z.of_nat m)))]),
              this').
Proof.
  induction m as [| m IH]; intros k stdOut this Hk.
  - assert (k = n) as -> by lia. exists this.
    change (0 + 2)%nat with 2%nat.
    rewrite for_loop_S, (InstanceFields_round_write _ _ _ _ (plus_script_dot n)).
    rewrite for_loop_S. unfold InstanceFields.loop_round at 1.
    rewrite plus_script_end. unfold InstanceFields.GetCharForStdOut.
    by rewrite <- fromCharCode_add_0.
  - change (S m + 2)%nat with (S (m + 2)).
    rewrite for_loop_S,
      (InstanceFields_round_plus _ _ _ _ (plus_script_lookup n k ltac:(lia))).
    destruct (IH (S k) stdOut (InstanceFields.IncrementMemoryLocation this 1))
      as [this' Hst']; [lia |].
    exists this'. rewrite Hst'.
    assert (add (ToNumber
                   (aget (InstanceFields.memory
                            (InstanceFields.IncrementMemoryLocation this 1))
                      (InstanceFields.memoryPointer
                         (InstanceFields.IncrementMemoryLocation this 1))))
              (Z.of_nat m)
            = add (ToNumber
                     (aget (InstanceFields.memory this)
                        (InstanceFields.memoryPointer this)))
                (Z.of_nat (S m))) as ->; [| done].
    unfold InstanceFields.IncrementMemoryLocation.
    cbn [InstanceFields.with_memory InstanceFields.memory
         InstanceFields.memoryPointer].
    rewrite aget_aset_eq. cbn [ToNumber]. rewrite add_add. f_equal. lia.
Qed.

Lemma BFjs_plus_rounds n stdin m :
  ∀ k std_out l,
    (k + m = n)%nat →
    ∃ l',
      for_loop (BFjs.loop_round (plus_script n) stdin) (m + 2) k std_out l
      = Some (Normal
                (std_out
                 ++ [fromCharCode
                       (Some (add (ToNumber
                                     (aget (BFjs.memory l) (BFjs.mem_index l)))
                                (Z.of_nat m)))]),
              l').
Proof.
  induction m as [| m IH]; intros k std_out l Hk.
  - assert (k = n) as -> by lia. exists l.
    change (0 + 2)%nat with 2%nat.
    rewrite for_loop_S, (BFjs_round_write _ _ _ _ _ (plus_script_dot n)).
    rewrite for_loop_S. unfold BFjs.loop_round at 1.
    rewrite plus_script_end.
    by rewrite <- fromCharCode_add_0.
  - change (S m + 2)%nat with (S (m + 2)).
    rewrite for_loop_S,
      (BFjs_round_plus _ _ _ _ _ (plus_script_lookup n k ltac:(lia))).
    destruct (IH (S k) std_out (BFjs.bump l 1)) as [l' Hl']; [lia |].
    exists l'. rewrite Hl'.
    assert (add (ToNumber
                   (aget (BFjs.memory (BFjs.bump l 1))
                      (BFjs.mem_index (BFjs.bump l 1))))
              (Z.of_nat m)
            = add (ToNumber (aget (BFjs.memory l) (BFjs.mem_index l)))
                (Z.of_nat (S m))) as ->; [| done].
    unfold BFjs.bump.
    cbn [BFjs.with_memory BFjs.memory BFjs.mem_index].
    rewrite aget_aset_eq. cbn [ToNumber]. rewrite add_add. f_equal. lia.
Qed.

Lemma counted_unit words n :
  fromCharCode
    (Some (add (ToNumber (aget {| props := zeros words; alength := words |} 0))
             (Z.of_nat n)))
  = if bool_decide (words ≤ 0) then 0 else Z.of_nat n mod 65536.
Proof.
  unfold aget; simpl. rewrite lookup_zeros.
  repeat case_bool_decide; try lia; done.
Qed.

(** X8.  Counting up.  The script of [n] signs ["+"] followed by ["."],
    run on a tape of at least one cell, returns the single character of
    code [n] modulo 65536: the cells are not bytes, only the character
    written is reduced.  On a tape of no cell (zero words for a class, a
    negative [opts.memory] for [BF]) cell 0 was never written, the sums
    are [NaN], and the character returned has code 0. *)
Theorem counting_script_output n o :
  0 ≤ MemoryWords o < 4294967296 →
  returned
    (StateObject.Interpret (n + 2)
       (StateObject.new_BFInterpreter (plus_script n) (Some o)))
  = Some (Normal [if bool_decide (MemoryWords o ≤ 0) then 0
                  else Z.of_nat n mod 65536])
  ∧ (∃ this,
       InstanceFields.new_BFInterpreter (plus_script n) (Some o)
       = Normal this
       ∧ returned (InstanceFields.Interpret (n + 2) this)
         = Some (Normal [if bool_decide (MemoryWords o ≤ 0) then 0
                         else Z.of_nat n mod 65536]))
  ∧ (∀ opts,
       BFjs.mem_size_of opts < 4294967296 →
       fst <$> BFjs.BF (n + 2) (plus_script n) (Some opts)
       = Some (Normal [if bool_decide (BFjs.mem_size_of opts ≤ 0) then 0
                       else Z.of_nat n mod 65536])).
Proof.
  intros Hwords. split; [| split].
  - unfold StateObject.Interpret, StateObject.InterpretInternal,
      StateObject.new_BFInterpreterState, new_Array_fill0.
    cbn [StateObject.new_BFInterpreter StateObject.options StateObject.code
         default from_option id].
    rewrite bool_decide_eq_true_2 by done.
    edestruct (StateObject_plus_rounds n (StdIn o) n 0%nat []) as [st' Hst'];
      [lia |].
    rewrite Hst'. cbn [StateObject.memory StateObject.memoryPointer].
    rewrite counted_unit. done.
  - unfold InstanceFields.new_BFInterpreter, new_Array_fill0.
    cbn [default from_option id]. rewrite bool_decide_eq_true_2 by done.
    eexists. split; [reflexivity |].
    unfold InstanceFields.Interpret, InstanceFields.InterpretInternal.
    cbn [InstanceFields.code].
    edestruct (InstanceFields_plus_rounds n n 0%nat []) as [this' Hst'];
      [lia |].
    rewrite Hst'. cbn [InstanceFields.memory InstanceFields.memoryPointer].
    rewrite counted_unit. done.
  - intros opts Hsize. unfold BFjs.BF, BFjs.initial_memory.
    cbv [default from_option id]. rewrite bool_decide_eq_true_2 by done.
    edestruct (BFjs_plus_rounds n (BFjs.stdin_of opts) n 0%nat [])
      as [l' Hl']; [lia |].
    rewrite Hl'. unfold BFjs.initial_locals.
    cbn [BFjs.memory BFjs.mem_index].
    unfold aget; cbn [props]. rewrite lookup_zeros. simpl.
    repeat case_bool_decide; try lia; done.
Qed.

Lemma counting_script_output_witness :
  returned
    (StateObject.Interpret (65 + 2)
       (StateObject.new_BFInterpreter (plus_script 65)
          (Some (quiet_options 3 []))))
  = Some (Normal (str "A")).
Proof.
  exact (proj1 (counting_script_output 65 (quiet_options 3 [])
                  ltac:(simpl; lia))).
Defined.

(** ** A loop end with no loop open *)

Lemma after_snoc {S : Type} (body : nat → jsstring → S → round S) n r i
  stdOut st :
  after body n r = Next i stdOut st →
  after body (Datatypes.S n) r = body i stdOut st.
Proof.
  revert r. induction n as [| n IH]; intros r Hn.
  - simpl in Hn. by subst r.
  - destruct r as [i0 o0 s0 | o0 s0 | e0 s0]; [| done | done].
    change (after body (Datatypes.S n) (body i0 o0 s0) = body i stdOut st).
    by apply IH.
Qed.

(** A ["]"] run with no loop open: when the current cell holds the number
    0 the round goes on with nothing changed, and otherwise it ends the
    loop. *)
Lemma StateObject_round_no_loop code stdIn i stdOut st :
  code !! i = Some (unit_of "]") →
  StateObject.loopStartIndices st = [] →
  StateObject.loop_round code stdIn i stdOut st
  = if bool_decide
         (aget (StateObject.memory st) (StateObject.memoryPointer st)
          = Some (Num 0))
    then Next (S i) stdOut st
    else Leave stdOut st.
Proof.
  intros Hi Hst. unfold StateObject.loop_round. rewrite Hi. simpl.
  unfold StateObject.IsMemoryLocationZero, StateObject.EndLoop,
    StateObject.PeekLoopStartIndices, StateObject.with_loopStartIndices.
  rewrite strict_eq_zero_cell, Hst. simpl.
  case_bool_decide; [| done]. destruct st; simpl in *; by subst.
Qed.

Lemma InstanceFields_round_no_loop code i stdOut this :
  code !! i = Some (unit_of "]") →
  InstanceFields.loopStartIndices this = [] →
  InstanceFields.loop_round code i stdOut this
  = if bool_decide
         (aget (InstanceFields.memory this)
            (InstanceFields.memoryPointer this)
          = Some (Num 0))
    then Next (S i) stdOut this
    else Leave stdOut this.
Proof.
  intros Hi Hst. unfold InstanceFields.loop_round. rewrite Hi. simpl.
  unfold InstanceFields.IsMemoryLocationZero,
    InstanceFields.PeekLoopStartIndices,
    InstanceFields.with_loopStartIndices.
  rewrite strict_eq_zero_cell, Hst. simpl.
  case_bool_decide; [| done]. destruct this; simpl in *; by subst.
Qed.

Lemma BFjs_round_no_loop code stdin i std_out l :
  code !! i = Some (unit_of "]") →
  BFjs.loop_start_indices l = [] →
  BFjs.loop_round code stdin i std_out l
  = if bool_decide
         (aget (BFjs.memory l) (BFjs.mem_index l) = Some (Num 0))
    then Next (S i) std_out l
    else Leave std_out l.
Proof.
  intros Hi Hst. unfold BFjs.loop_round. rewrite Hi. simpl.
  unfold BFjs.with_loop_start_indices.
  rewrite strict_eq_zero_cell, Hst. simpl.
  case_bool_decide; [| done]. destruct l; simpl in *; by subst.
Qed.

(** X9.  A ["]"] with no loop open raises nothing.  When a run from a
    fresh state comes to a ["]"] that no ["["] before it has left open,
    what happens depends on the current cell alone: if it holds the
    number 0, the run goes on after the ["]"] with the state and the
    output as they were; if it holds another number or [NaN], or was
    never written, the run ends there, and the call returns the output
    produced so far without running the rest of the script.  This holds
    for both classes and for [BF]. *)
Theorem loop_end_without_loop code i fuel :
  code !! i = Some (unit_of "]") →
  open_loops code i = [] →
  (∀ o st0 n stdOut st,
     StateObject.new_BFInterpreterState o = Normal st0 →
     after (StateObject.loop_round code (StdIn o)) n (Next 0 [] st0)
     = Next i stdOut st →
     (n < fuel)%nat →
     if bool_decide
          (aget (StateObject.memory st) (StateObject.memoryPointer st)
           = Some (Num 0))
     then after (StateObject.loop_round code (StdIn o)) (S n)
            (Next 0 [] st0)
          = Next (S i) stdOut st
     else returned
            (StateObject.Interpret fuel
               (StateObject.new_BFInterpreter code (Some o)))
          = Some (Normal stdOut))
  ∧ (∀ o this0 n stdOut this,
       InstanceFields.new_BFInterpreter code o = Normal this0 →
       after (InstanceFields.loop_round code) n (Next 0 [] this0)
       = Next i stdOut this →
       (n < fuel)%nat →
       if bool_decide
            (aget (InstanceFields.memory this)
               (InstanceFields.memoryPointer this)
             = Some (Num 0))
       then after (InstanceFields.loop_round code) (S n) (Next 0 [] this0)
            = Next (S i) stdOut this
       else returned (InstanceFields.Interpret fuel this0)
            = Some (Normal stdOut))
  ∧ (∀ opts m n std_out l,
       BFjs.initial_memory (BFjs.mem_size_of (default BFjs.no_opts opts))
       = Normal m →
       after (BFjs.loop_round code (BFjs.stdin_of (default BFjs.no_opts opts)))
         n (Next 0 [] (BFjs.initial_locals m))
       = Next i std_out l →
       (n < fuel)%nat →
       if bool_decide
            (aget (BFjs.memory l) (BFjs.mem_index l) = Some (Num 0))
       then after
              (BFjs.loop_round code
                 (BFjs.stdin_of (default BFjs.no_opts opts)))
              (S n) (Next 0 [] (BFjs.initial_locals m))
            = Next (S i) std_out l
       else fst <$> BFjs.BF fuel code opts = Some (Normal std_out)).
Proof.
  intros Hi Hopen. split; [| split].
  - intros o st0 n stdOut st Hnew Hn Hlt.
    assert (StateObject.loopStartIndices st = []) as Hst.
    { rewrite <- Hopen.
      eapply (after_position_invariant _
                (λ j s, StateObject.loopStartIndices s = open_loops code j));
        [| | exact Hn].
      - intros. by apply StateObject_round_open_loops.
      - unfold StateObject.new_BFInterpreterState in Hnew.
        destruct (new_Array_fill0 _); by inversion Hnew. }
    pose proof (StateObject_round_no_loop code (StdIn o) i stdOut st Hi Hst)
      as Hr.
    case_bool_decide.
    + by rewrite (after_snoc _ _ _ _ _ _ Hn).
    + unfold StateObject.Interpret, StateObject.InterpretInternal.
      cbn [StateObject.new_BFInterpreter StateObject.code
           StateObject.options default from_option id].
      rewrite Hnew.
      by rewrite (for_loop_leaves _ _ _ _ _ _ _ _ _ Hn Hr Hlt).
  - intros o this0 n stdOut this Hnew Hn Hlt.
    assert (InstanceFields.code this0 = code) as Hcode.
    { unfold InstanceFields.new_BFInterpreter in Hnew.
      destruct (new_Array_fill0 _); by inversion Hnew. }
    assert (InstanceFields.loopStartIndices this = []) as Hst.
    { rewrite <- Hopen.
      eapply (after_position_invariant _
                (λ j s, InstanceFields.loopStartIndices s
                        = open_loops code j));
        [| | exact Hn].
      - intros. by apply InstanceFields_round_open_loops.
      - unfold InstanceFields.new_BFInterpreter in Hnew.
        destruct (new_Array_fill0 _); by inversion Hnew. }
    pose proof (InstanceFields_round_no_loop code i stdOut this Hi Hst)
      as Hr.
    case_bool_decide.
    + by rewrite (after_snoc _ _ _ _ _ _ Hn).
    + unfold InstanceFields.Interpret, InstanceFields.InterpretInternal.
      rewrite Hcode.
      by rewrite (for_loop_leaves _ _ _ _ _ _ _ _ _ Hn Hr Hlt).
  - intros opts m n std_out l Hm Hn Hlt.
    assert (BFjs.loop_start_indices l = []) as Hst.
    { rewrite <- Hopen.
      eapply (after_position_invariant _
                (λ j s, BFjs.loop_start_indices s = open_loops code j));
        [| | exact Hn].
      - intros. by apply BFjs_round_open_loops.
      - done. }
    pose proof (BFjs_round_no_loop code
                  (BFjs.stdin_of (default BFjs.no_opts opts)) i std_out l
                  Hi Hst) as Hr.
    case_bool_decide.
    + by rewrite (after_snoc _ _ _ _ _ _ Hn).
    + unfold BFjs.BF. rewrite Hm.
      by rewrite (for_loop_leaves _ _ _ _ _ _ _ _ _ Hn Hr Hlt).
Qed.

Lemma loop_end_without_loop_witness :
  returned
    (StateObject.Interpret 4
       (StateObject.new_BFInterpreter (str "+.]+.")
          (Some (quiet_options 2 []))))
  = Some (Normal [1])
  ∧ after (InstanceFields.loop_round (str ".]+.")) 2
      (Next 0 []
         {| InstanceFields.code := str ".]+.";
            InstanceFields.options := quiet_options 2 [];
            InstanceFields.memoryPointer := 0;
            InstanceFields.memory := {| props := zeros 2; alength := 2 |};
            InstanceFields.stdInPointer := 0;
            InstanceFields.loopStartIndices := [] |})
    = Next 2 [0]
        {| InstanceFields.code := str ".]+.";
           InstanceFields.options := quiet_options 2 [];
           InstanceFields.memoryPointer := 0;
           InstanceFields.memory := {| props := zeros 2; alength := 2 |};
           InstanceFields.stdInPointer := 0;
           InstanceFields.loopStartIndices := [] |}
  ∧ fst <$> BFjs.BF 4 (str "<]+.") (Some (quiet_opts 2 []))
    = Some (Normal []).
Proof.
  split; [| split].
  - exact (proj1 (loop_end_without_loop (str "+.]+.") 2 4 eq_refl eq_refl)
             (quiet_options 2 [])
             {| StateObject.memoryPointer := 0;
                StateObject.memory := {| props := zeros 2; alength := 2 |};
                StateObject.stdInPointer := 0;
                StateObject.loopStartIndices := [] |}
             2%nat [1]
             {| StateObject.memoryPointer := 0;
                StateObject.memory :=
                  aset {| props := zeros 2; alength := 2 |} 0 (Num 1);
                StateObject.stdInPointer := 0;
                StateObject.loopStartIndices := [] |}
             eq_refl eq_refl ltac:(lia)).
  - exact (proj1 (proj2 (loop_end_without_loop (str ".]+.") 1 4 eq_refl
                           eq_refl))
             (Some (quiet_options 2 []))
             {| InstanceFields.code := str ".]+.";
                InstanceFields.options := quiet_options 2 [];
                InstanceFields.memoryPointer := 0;
                InstanceFields.memory := {| props := zeros 2; alength := 2 |};
                InstanceFields.stdInPointer := 0;
                InstanceFields.loopStartIndices := [] |}
             1%nat [0]
             {| InstanceFields.code := str ".]+.";
                InstanceFields.options := quiet_options 2 [];
                InstanceFields.memoryPointer := 0;
                InstanceFields.memory := {| props := zeros 2; alength := 2 |};
                InstanceFields.stdInPointer := 0;
                InstanceFields.loopStartIndices := [] |}
             eq_refl eq_refl ltac:(lia)).
  - exact (proj2 (proj2 (loop_end_without_loop (str "<]+.") 1 4 eq_refl
                           eq_refl))
             (Some (quiet_opts 2 []))
             {| props := zeros 2; alength := 2 |}
             1%nat []
             {| BFjs.memory := {| props := zeros 2; alength := 2 |};
                BFjs.mem_index := -1;
                BFjs.loop_start_indices := [];
                BFjs.stdin_index := 0 |}
             eq_refl eq_refl ltac:(lia)).
Defined.
(** ** A loop start never skips *)

Lemma StateObject_round_onward code stdIn i stdOut st c :
  code !! i = Some c → c ≠ unit_of "]" →
  match StateObject.loop_round code stdIn i stdOut st with
  | Next i' _ _ => i' = S i
  | Leave _ _ => False
  | Raise _ _ => True
  end.
Proof.
  intros Hi Hc. unfold StateObject.loop_round. rewrite Hi.
  token_cases c; simpl; try done.
  - by destruct (StateObject.MoveMemoryPointer st 1) as [? [? |]].
  - by destruct (StateObject.MoveMemoryPointer st (-1)) as [? [? |]].
Qed.

Lemma InstanceFields_round_onward code i stdOut this c :
  code !! i = Some c → c ≠ unit_of "]" →
  match InstanceFields.loop_round code i stdOut this with
  | Next i' _ _ => i' = S i
  | Leave _ _ => False
  | Raise _ _ => True
  end.
Proof.
  intros Hi Hc. unfold InstanceFields.loop_round. rewrite Hi.
  token_cases c; simpl; try done.
  - by destruct (InstanceFields.MoveMemoryPointer this 1) as [? [? |]].
  - by destruct (InstanceFields.MoveMemoryPointer this (-1)) as [? [? |]].
Qed.

Lemma BFjs_round_onward code stdin i std_out l c :
  code !! i = Some c → c ≠ unit_of "]" →
  ∃ std_out' l',
    BFjs.loop_round code stdin i std_out l = Next (S i) std_out' l'.
Proof.
  intros Hi Hc. unfold BFjs.loop_round. rewrite Hi.
  token_cases c; simpl; try done; by eexists _, _.
Qed.

(** X10.  A ["["] never skips its loop: whatever the cells hold, every
    instruction before the first ["]"] of the script is run, one after
    the other.  In [BF] the run stands at position [n] after [n] rounds,
    for every [n] up to the first ["]"]; in the classes it does so unless
    one of these instructions has raised. *)
Theorem instructions_before_first_loop_end_all_run code n :
  (n ≤ List.length code)%nat →
  (∀ k, (k < n)%nat → code !! k ≠ Some (unit_of "]")) →
  (∀ stdin l,
     ∃ std_out l',
       after (BFjs.loop_round code stdin) n (Next 0 [] l)
       = Next n std_out l')
  ∧ (∀ stdIn st,
       match after (StateObject.loop_round code stdIn) n (Next 0 [] st) with
       | Next i _ _ => i = n
       | Leave _ _ => False
       | Raise _ _ => True
       end)
  ∧ (∀ this,
       match after (InstanceFields.loop_round code) n (Next 0 [] this) with
       | Next i _ _ => i = n
       | Leave _ _ => False
       | Raise _ _ => True
       end).
Proof.
  intros Hn Hno.
  assert (∀ k, (k < n)%nat →
               ∃ c, code !! k = Some c ∧ c ≠ unit_of "]") as Hat.
  { intros k Hk. destruct (lookup_lt_is_Some_2 code k) as [c Hc]; [lia |].
    exists c. split; [done |]. intros ->. by apply (Hno k). }
  clear Hn Hno. split; [| split].
  - intros stdin l.
    cut (∀ m i std_out l0,
           (i + m = n)%nat →
           ∃ std_out' l',
             after (BFjs.loop_round code stdin) m (Next i std_out l0)
             = Next n std_out' l').
    { intros H. by apply (H n 0%nat). }
    induction m as [| m IH]; intros i std_out l0 Him; simpl.
    + assert (i = n) as -> by lia. by eexists _, _.
    + destruct (Hat i) as (c & Hc & Hne); [lia |].
      destruct (BFjs_round_onward code stdin i std_out l0 c Hc Hne)
        as (o1 & l1 & ->).
      apply IH. lia.
  - intros stdIn st.
    cut (∀ m i stdOut s0,
           (i + m = n)%nat →
           match after (StateObject.loop_round code stdIn) m
                   (Next i stdOut s0) with
           | Next j _ _ => j = n
           | Leave _ _ => False
           | Raise _ _ => True
           end).
    { intros H. by apply (H n 0%nat). }
    induction m as [| m IH]; intros i stdOut s0 Him; simpl; [lia |].
    destruct (Hat i) as (c & Hc & Hne); [lia |].
    pose proof (StateObject_round_onward code stdIn i stdOut s0 c Hc Hne)
      as Hr.
    destruct (StateObject.loop_round code stdIn i stdOut s0)
      as [i1 o1 s1 | o1 s1 | e1 s1]; [| done |].
    + subst i1. apply IH. lia.
    + by destruct m.
  - intros this.
    cut (∀ m i stdOut s0,
           (i + m = n)%nat →
           match after (InstanceFields.loop_round code) m
                   (Next i stdOut s0) with
           | Next j _ _ => j = n
           | Leave _ _ => False
           | Raise _ _ => True
           end).
    { intros H. by apply (H n 0%nat). }
    induction m as [| m IH]; intros i stdOut s0 Him; simpl; [lia |].
    destruct (Hat i) as (c & Hc & Hne); [lia |].
    pose proof (InstanceFields_round_onward code i stdOut s0 c Hc Hne)
      as Hr.
    destruct (InstanceFields.loop_round code i stdOut s0)
      as [i1 o1 s1 | o1 s1 | e1 s1]; [| done |].
    + subst i1. apply IH. lia.
    + by destruct m.
Qed.

Lemma instructions_before_first_loop_end_all_run_witness :
  ∃ std_out l',
    after (BFjs.loop_round (str "[.+]") []) 3
      (Next 0 [] (BFjs.initial_locals (mkArray ∅ 0)))
    = Next 3 std_out l'.
Proof.
  apply (proj1 (instructions_before_first_loop_end_all_run (str "[.+]") 3
                  ltac:(simpl; lia)
                  ltac:(intros [| [| [| k]]] Hk; simpl;
                        [discriminate | discriminate | discriminate | lia]))).
Defined.

(** ** Instructions that cancel *)

Lemma add_0 x : add x 0 = x.
Proof. destruct x; simpl; [by rewrite Z.add_0_r | done]. Qed.

Lemma aset_back m p x d :
  aget m p = Some x →
  p < alength m →
  aset (aset m p (add x d)) p
    (add (ToNumber (aget (aset m p (add x d)) p)) (- d))
  = m.
Proof.
  intros Hx Hp. rewrite aget_aset_eq. cbn [ToNumber].
  rewrite add_add, Z.add_opp_diag_r, add_0.
  destruct m as [pr len]. unfold aget, aset in *. simpl in *.
  f_equal.
  - rewrite insert_insert_eq. by apply insert_id.
  - repeat case_bool_decide; lia.
Qed.

(** X11.  Instructions that cancel.  On a cell of the tape that has been
    written, ["+"] followed by ["-"], and ["-"] followed by ["+"], leave
    the whole state as it was, in the classes and in [BF]: cells are
    unbounded integers, nothing is clipped on the way.  In the classes,
    [">"] followed by ["<"] raises nothing and leaves the state as it
    was when the pointer is from 0 to one below the limit of
    [MoveMemoryPointer]. *)
Theorem inverse_instructions_cancel d :
  (∀ st x,
     aget (StateObject.memory st) (StateObject.memoryPointer st) = Some x →
     StateObject.memoryPointer st < alength (StateObject.memory st) →
     StateObject.IncrementMemoryLocation
       (StateObject.IncrementMemoryLocation st d) (- d) = st)
  ∧ (∀ this x,
       aget (InstanceFields.memory this) (InstanceFields.memoryPointer this)
       = Some x →
       InstanceFields.memoryPointer this
       < alength (InstanceFields.memory this) →
       InstanceFields.IncrementMemoryLocation
         (InstanceFields.IncrementMemoryLocation this d) (- d) = this)
  ∧ (∀ l x,
       aget (BFjs.memory l) (BFjs.mem_index l) = Some x →
       BFjs.mem_index l < alength (BFjs.memory l) →
       BFjs.bump (BFjs.bump l d) (- d) = l)
  ∧ (∀ st,
       0 ≤ StateObject.memoryPointer st < alength (StateObject.memory st) →
       StateObject.MoveMemoryPointer
         (StateObject.MoveMemoryPointer st 1).1 (-1) = (st, None)
       ∧ (StateObject.MoveMemoryPointer st 1).2 = None)
  ∧ (∀ this,
       0 ≤ InstanceFields.memoryPointer this
       < MemoryWords (InstanceFields.options this) →
       InstanceFields.MoveMemoryPointer
         (InstanceFields.MoveMemoryPointer this 1).1 (-1) = (this, None)
       ∧ (InstanceFields.MoveMemoryPointer this 1).2 = None).
Proof.
  split; [| split; [| split; [| split]]].
  - intros st x Hx Hp. destruct st as [p m sp ls]. simpl in *.
    unfold StateObject.IncrementMemoryLocation, StateObject.with_memory.
    simpl. rewrite Hx. cbn [ToNumber]. f_equal. by apply aset_back.
  - intros this x Hx Hp. destruct this as [c o p m sp ls]. simpl in *.
    unfold InstanceFields.IncrementMemoryLocation,
      InstanceFields.with_memory.
    simpl. rewrite Hx. cbn [ToNumber]. f_equal. by apply aset_back.
  - intros l x Hx Hp. destruct l as [m p ls sp]. simpl in *.
    unfold BFjs.bump, BFjs.with_memory.
    simpl. rewrite Hx. cbn [ToNumber]. f_equal. by apply aset_back.
  - intros st Hp. destruct st as [p m sp ls]. simpl in *.
    unfold StateObject.MoveMemoryPointer. simpl.
    destruct (p + 1 <? 0) eqn:E1; [lia |].
    destruct (p + 1 >? alength m) eqn:E2; [lia |]. simpl.
    replace (p + 1 + -1) with p by lia.
    destruct (p <? 0) eqn:E3; [lia |].
    destruct (p >? alength m) eqn:E4; [lia |]. done.
  - intros this Hp. destruct this as [c o p m sp ls]. simpl in *.
    unfold InstanceFields.MoveMemoryPointer. simpl.
    destruct (p + 1 <? 0) eqn:E1; [lia |].
    destruct (p + 1 >? MemoryWords o) eqn:E2; [lia |]. simpl.
    replace (p + 1 + -1) with p by lia.
    destruct (p <? 0) eqn:E3; [lia |].
    destruct (p >? MemoryWords o) eqn:E4; [lia |]. done.
Qed.

Lemma inverse_instructions_cancel_witness :
  StateObject.IncrementMemoryLocation
    (StateObject.IncrementMemoryLocation (state_with (Num 5) []) 1) (- (1))
  = state_with (Num 5) [].
Proof.
  apply (proj1 (inverse_instructions_cancel 1) (state_with (Num 5) [])
           (Num 5)); reflexivity.
Defined.

(** ** What each instruction moves *)

(** X12.  The pointer and the input cursor move only at their own
    instructions.  In every round of a class the data pointer goes up by
    one at [">"], down by one at ["<"] (also when the move is refused:
    the pointer is moved before it is checked) and stays where it is at
    every other character; the input cursor goes up by one at [","] and
    stays where it is at every other character.  The same holds for
    [BF]. *)
Theorem pointer_and_cursor_frame code i stdOut token :
  code !! i = Some token →
  let dp := if tok_is token ">" then 1 else if tok_is token "<" then -1
            else 0 in
  let dc := if tok_is token "," then 1%nat else 0%nat in
  (∀ stdIn st,
     let st' := state_of (StateObject.loop_round code stdIn i stdOut st) in
     StateObject.memoryPointer st' = StateObject.memoryPointer st + dp
     ∧ StateObject.stdInPointer st' = (StateObject.stdInPointer st + dc)%nat)
  ∧ (∀ this,
       let this' := state_of (InstanceFields.loop_round code i stdOut this) in
       InstanceFields.memoryPointer this'
       = InstanceFields.memoryPointer this + dp
       ∧ InstanceFields.stdInPointer this'
         = (InstanceFields.stdInPointer this + dc)%nat)
  ∧ (∀ stdin l,
       let l' := state_of (BFjs.loop_round code stdin i stdOut l) in
       BFjs.mem_index l' = BFjs.mem_index l + dp
       ∧ BFjs.stdin_index l' = (BFjs.stdin_index l + dc)%nat).
Proof.
  intros Hi dp dc. subst dp dc. split; [| split].
  - intros stdIn st. unfold StateObject.loop_round. rewrite Hi.
    token_cases token; rewrite_tokens; simpl;
      try (split; [lia | lia]).
    + move_cases StateObject_Move_state st 1; split; lia.
    + move_cases StateObject_Move_state st (-1); split; lia.
    + destruct (StateObject.IsMemoryLocationZero st); simpl;
        [split; lia |].
      destruct (StateObject.PeekLoopStartIndices st); simpl; split; lia.
  - intros this. unfold InstanceFields.loop_round. rewrite Hi.
    token_cases token; rewrite_tokens; simpl;
      try (split; [lia | lia]).
    + move_cases InstanceFields_Move_state this 1; split; lia.
    + move_cases InstanceFields_Move_state this (-1); split; lia.
    + destruct (InstanceFields.IsMemoryLocationZero this); simpl;
        [split; lia |].
      destruct (InstanceFields.PeekLoopStartIndices this); simpl; split; lia.
  - intros stdin l. unfold BFjs.loop_round. rewrite Hi.
    token_cases token; rewrite_tokens; simpl;
      try (split; [lia | lia]).
    destruct (strict_eq_zero _); simpl; [split; lia |].
    destruct (peek _); simpl; split; lia.
Qed.

Lemma pointer_and_cursor_frame_witness :
  StateObject.memoryPointer
    (state_of
       (StateObject.loop_round (str "<") [] 0 [] (state_with (Num 5) [])))
  = -1.
Proof.
  apply (proj1 (proj1 (pointer_and_cursor_frame (str "<") 0 [] (unit_of "<")
                         eq_refl) [] (state_with (Num 5) []))).
Defined.

(** ** After a pointer error *)

(** X13.  A pointer error leaves an object of the first class with the
    refused pointer.  When [Interpret] throws a pointer error on an
    object whose pointer and tape were in range, the object is left with
    the pointer the error reports, -1 or [MemoryWords] + 1, out of the
    range the check allows; the next call starts from there. *)
Theorem pointer_error_leaves_pointer_out_of_range fuel this e this' evs :
  InstanceFields_in_range this →
  InstanceFields.Interpret fuel this = Some (Throw e, this', evs) →
  PointerRangeError e = true →
  (InstanceFields.memoryPointer this' = -1
   ∨ InstanceFields.memoryPointer this'
     = MemoryWords (InstanceFields.options this) + 1)
  ∧ match e with
    | PointerBelowZero p _ _ | PointerAboveLimit _ p _ _ =>
        p = InstanceFields.memoryPointer this'
    | _ => False
    end.
Proof.
  intros Hin H He.
  pose proof (InstanceFields_Interpret_keeps _ _ _ _ _ H) as [_ Ho].
  unfold InstanceFields.Interpret, InstanceFields.InterpretInternal in H.
  destruct (for_loop _ fuel _ _ _) as [[[out | e0] st] |] eqn:Hl;
    [done | | done].
  inversion H; subst e0 st evs. clear H.
  destruct (for_loop_last _ _ _ _ _ _ _ Hl)
    as (n & j & o0 & s0 & Hn & Hlast).
  assert (InstanceFields_in_range s0) as (Hp & _ & _).
  { pose proof (InstanceFields_run_in_range (InstanceFields.code this) n
                  this Hin) as Hinv.
    by rewrite Hn in Hinv. }
  assert (InstanceFields.options s0 = InstanceFields.options this) as Hos.
  { change s0 with
      (state_of (Next j o0 s0 : round InstanceFields.BFInterpreter)).
    rewrite <- Hn.
    apply (after_invariant _
             (λ b, InstanceFields.options b = InstanceFields.options this));
      [| done].
    intros i stdOut b Hb.
    by rewrite (proj2 (InstanceFields_round_code _ i stdOut b)). }
  rewrite Hos in Hp. simpl in Hlast.
  unfold InstanceFields.loop_round in Hlast.
  destruct (InstanceFields.code this !! j) as [token |]; [| done].
  token_cases token; simpl in Hlast; try discriminate.
  - pose proof (InstanceFields_Move_check s0 1) as Hc. simpl in Hc.
    pose proof (InstanceFields_Move_state s0 1) as Hs.
    destruct (InstanceFields.MoveMemoryPointer s0 1) as [b [e1 |]];
      [| done]. inversion Hlast; subst. simpl in *.
    rewrite Hos in Hc.
    repeat case_bool_decide; inversion Hc; subst; split; simpl;
      try done; lia.
  - pose proof (InstanceFields_Move_check s0 (-1)) as Hc. simpl in Hc.
    pose proof (InstanceFields_Move_state s0 (-1)) as Hs.
    destruct (InstanceFields.MoveMemoryPointer s0 (-1)) as [b [e1 |]];
      [| done]. inversion Hlast; subst. simpl in *.
    rewrite Hos in Hc.
    repeat case_bool_decide; inversion Hc; subst; split; simpl;
      try done; lia.
  - destruct (InstanceFields.IsMemoryLocationZero s0); [done |].
    by destruct (InstanceFields.PeekLoopStartIndices s0).
  - by inversion Hlast; subst.
Qed.

Lemma pointer_error_leaves_pointer_out_of_range_witness :
  InstanceFields.Interpret 1
    {| InstanceFields.code := str "<";
       InstanceFields.options := quiet_options 3 [];
       InstanceFields.memoryPointer := 0;
       InstanceFields.memory := {| props := zeros 3; alength := 3 |};
       InstanceFields.stdInPointer := 0;
       InstanceFields.loopStartIndices := [] |}
  = Some (Throw (PointerBelowZero (-1) 0 3),
          {| InstanceFields.code := str "<";
             InstanceFields.options := quiet_options 3 [];
             InstanceFields.memoryPointer := -1;
             InstanceFields.memory := {| props := zeros 3; alength := 3 |};
             InstanceFields.stdInPointer := 0;
             InstanceFields.loopStartIndices := [] |}, [])
  ∧ ((-1 = -1 ∨ -1 = 3 + 1) ∧ -1 = -1).
Proof.
  split; [reflexivity |].
  apply (pointer_error_leaves_pointer_out_of_range 1
           {| InstanceFields.code := str "<";
              InstanceFields.options := quiet_options 3 [];
              InstanceFields.memoryPointer := 0;
              InstanceFields.memory := {| props := zeros 3; alength := 3 |};
              InstanceFields.stdInPointer := 0;
              InstanceFields.loopStartIndices := [] |}
           (PointerBelowZero (-1) 0 3)
           {| InstanceFields.code := str "<";
              InstanceFields.options := quiet_options 3 [];
              InstanceFields.memoryPointer := -1;
              InstanceFields.memory := {| props := zeros 3; alength := 3 |};
              InstanceFields.stdInPointer := 0;
              InstanceFields.loopStartIndices := [] |}
           []).
  - apply (InstanceFields_fresh_in_range (str "<")
             (Some (quiet_options 3 []))).
    reflexivity.
  - reflexivity.
  - reflexivity.
Defined.

(** ** Walking past the limit *)

Lemma walk_script_S n :
  walk_script (S n) = unit_of "+" :: unit_of ">" :: walk_script n.
Proof. reflexivity. Qed.

Lemma walk_script_length n : List.length (walk_script n) = (2 * n)%nat.
Proof.
  induction n as [| n IH]; [done |].
  rewrite walk_script_S. simpl List.length. rewrite IH. lia.
Qed.

Lemma walk_script_lookup n k :
  (k < n)%nat →
  walk_script n !! (2 * k)%nat = Some (unit_of "+")
  ∧ walk_script n !! S (2 * k) = Some (unit_of ">").
Proof.
  revert k. induction n as [| n IH]; intros k Hk; [lia |].
  rewrite walk_script_S. destruct k as [| k]; [done |].
  replace (2 * S k)%nat with (S (S (2 * k))) by lia.
  rewrite !lookup_past_pair. apply IH. lia.
Qed.

Lemma walk_script_end n : walk_script n !! (2 * n)%nat = None.
Proof. apply lookup_ge_None_2. by rewrite walk_script_length. Qed.

Lemma StateObject_round_right code stdIn i stdOut st :
  code !! i = Some (unit_of ">") →
  StateObject.loop_round code stdIn i stdOut st
  = match StateObject.MoveMemoryPointer st 1 with
    | (st', None) => Next (S i) stdOut st'
    | (st', Some e) => Raise e st'
    end.
Proof. intros Hi. unfold StateObject.loop_round. by rewrite Hi. Qed.

Lemma StateObject_walk_rounds n stdIn m :
  Z.of_nat n < 4294967296 →
  ∀ k stdOut st,
    (k + m = n)%nat →
    StateObject.memoryPointer st = Z.of_nat k →
    Z.of_nat k ≤ alength (StateObject.memory st) →
    ∃ st',
      for_loop (StateObject.loop_round (walk_script n) stdIn) (2 * m + 1)
        (2 * k) stdOut st
      = Some (Normal stdOut, st')
      ∧ StateObject.memoryPointer st' = Z.of_nat n.
Proof.
  intros Hn. induction m as [| m IH]; intros k stdOut st Hk Hp Hlen.
  - exists st. assert (k = n) as -> by lia.
    change (2 * 0 + 1)%nat with 1%nat. rewrite for_loop_S.
    unfold StateObject.loop_round. by rewrite walk_script_end.
  - destruct (walk_script_lookup n k) as [Hplus Hright]; [lia |].
    replace (2 * S m + 1)%nat with (S (S (2 * m + 1))) by lia.
    rewrite for_loop_S, (StateObject_round_plus _ _ _ _ _ Hplus).
    rewrite for_loop_S, (StateObject_round_right _ _ _ _ _ Hright).
    assert (Z.of_nat k + 1
            ≤ alength (aset (StateObject.memory st)
                         (StateObject.memoryPointer st)
                         (add (ToNumber
                                 (aget (StateObject.memory st)
                                    (StateObject.memoryPointer st))) 1)))
      as Hgrow.
    { unfold aset; simpl. rewrite Hp. case_bool_decide; lia. }
    pose proof (StateObject_Move_check
                  (StateObject.IncrementMemoryLocation st 1) 1) as Hc.
    pose proof (StateObject_Move_state
                  (StateObject.IncrementMemoryLocation st 1) 1) as Hs.
    destruct (StateObject.MoveMemoryPointer
                (StateObject.IncrementMemoryLocation st 1) 1) as [b oe].
    simpl in Hc, Hs. subst b.
    unfold aset in Hgrow, Hc. simpl in Hgrow, Hc. rewrite Hp in Hgrow, Hc.
    rewrite bool_decide_eq_false_2 in Hc by lia.
    rewrite bool_decide_eq_false_2 in Hc by lia.
    subst oe.
    replace (S (S (2 * k))) with (2 * S k)%nat by lia.
    apply IH; [lia | simpl; lia | simpl; rewrite Hp; lia].
Qed.

(** X14.  In the class with a state object the limit of the pointer moves
    with the tape.  The check of [MoveMemoryPointer] compares the pointer
    with the length of the tape, and a write at the end of the tape makes
    it one longer: the script of [n] pairs ["+>"] is never refused,
    however few words were asked for, and leaves the pointer at [n].
    ([n] is below 2^32, the greatest length of an array.) *)
Theorem writing_before_moving_is_never_refused n o :
  0 ≤ MemoryWords o < 4294967296 →
  Z.of_nat n < 4294967296 →
  returned
    (StateObject.Interpret (2 * n + 1)
       (StateObject.new_BFInterpreter (walk_script n) (Some o)))
  = Some (Normal [])
  ∧ ∀ st0,
      StateObject.new_BFInterpreterState o = Normal st0 →
      ∃ st,
        for_loop (StateObject.loop_round (walk_script n) (StdIn o))
          (2 * n + 1) 0 [] st0
        = Some (Normal [], st)
        ∧ StateObject.memoryPointer st = Z.of_nat n.
Proof.
  intros Hwords Hn.
  assert (∀ st0,
            StateObject.new_BFInterpreterState o = Normal st0 →
            ∃ st,
              for_loop (StateObject.loop_round (walk_script n) (StdIn o))
                (2 * n + 1) 0 [] st0
              = Some (Normal [], st)
              ∧ StateObject.memoryPointer st = Z.of_nat n) as Hrun.
  { intros st0 Hnew.
    destruct (StateObject_fresh_state _ _ Hnew) as (Hp & _ & _ & Hlen & _).
    apply (StateObject_walk_rounds n (StdIn o) n Hn 0%nat [] st0);
      [lia | by rewrite Hp | rewrite Hlen; lia]. }
  split; [| done].
  unfold StateObject.Interpret, StateObject.InterpretInternal.
  cbn [StateObject.new_BFInterpreter StateObject.options StateObject.code
       default from_option id].
  destruct (StateObject.new_BFInterpreterState o) as [st0 | e] eqn:Hnew.
  - destruct (Hrun st0 eq_refl) as (st & -> & _). done.
  - unfold StateObject.new_BFInterpreterState, new_Array_fill0 in Hnew.
    by rewrite bool_decide_eq_true_2 in Hnew.
Qed.

Lemma writing_before_moving_is_never_refused_witness :
  returned
    (StateObject.Interpret (2 * 5 + 1)
       (StateObject.new_BFInterpreter (walk_script 5)
          (Some (quiet_options 3 []))))
  = Some (Normal []).
Proof.
  exact (proj1 (writing_before_moving_is_never_refused 5 (quiet_options 3 [])
                  ltac:(simpl; lia) ltac:(simpl; lia))).
Defined.
